(** * Fixed-capacity binary heaps: [max-heap.cpp] and [min-heap.cpp]

    A shallow embedding of the two array-backed heap classes of
    [src/data-structures/heap], and the properties their description
    states about them.

    The two classes are the same text up to the direction of three
    comparisons and one constant; the embedding takes the class as a
    parameter ([variant]) and spells the comparisons out per class. *)

From Stdlib Require Import ZArith Lia ZifyNat Sorted Permutation Ascii.
From stdpp Require Import base numbers list strings pretty sorting.
From Equations Require Import Equations.
From Equations.Prop Require Import Logic.

Local Open Scope Z_scope.
Local Open Scope nat_scope.

(** ** Data model *)

(** [<climits>], for a 32-bit [int]. *)
Definition INT_MAX : Z := 2147483647%Z.
Definition INT_MIN : Z := (-2147483648)%Z.

(** Which of the two classes is meant. *)
Inductive variant : Set := MaxHeap | MinHeap.

(** The three private members.  [heap] is the [vector<int>]; elements are
    [int]s, which the code only ever copies and compares, so they are
    integers here.  [heapSize] and [realSize] are [int]s that stay within
    [0 .. heapSize + 1], and the constructor is only defined for
    [0 <= capacity < INT_MAX] (it resizes to [capacity + 1]): no index
    computation leaves the range of [int], and they are naturals here. *)
Record state : Set := mkState {
  heap : list Z;
  heapSize : nat;
  realSize : nat
}.

(** What an operation writes to [cout], one entry per line. *)
Definition console : Set := list string.

(** Constructor: [heap.resize(heapSize + 1); heap[0] = 0;] with
    [realSize = 0].  [resize] value-initialises the new slots. *)
Definition new (capacity : nat) : state :=
  {| heap := <[0 := 0%Z]> (replicate (capacity + 1) 0%Z);
     heapSize := capacity;
     realSize := 0 |}.

(** ** Comparisons *)

(** [beats v a b]: [a > b] in [max-heap.cpp], [a < b] in [min-heap.cpp].
    It is the test [heap[index] ? heap[parent]] of [add] and the test
    [heap[left] ? heap[right]] of [pop]. *)
Definition beats (v : variant) (a b : Z) : bool :=
  match v with
  | MaxHeap => (a >? b)%Z
  | MinHeap => (a <? b)%Z
  end.

(** [loses v a b]: [a < b] in [max-heap.cpp], [a > b] in [min-heap.cpp].
    It is the test [heap[index] ? heap[left]] (and [right]) of [pop]. *)
Definition loses (v : variant) (a b : Z) : bool :=
  match v with
  | MaxHeap => (a <? b)%Z
  | MinHeap => (a >? b)%Z
  end.

(** The value [pop] returns on an empty heap. *)
Definition pop_empty (v : variant) : Z :=
  match v with
  | MaxHeap => INT_MIN
  | MinHeap => INT_MAX
  end.

(** ** Operations *)

(** [swap(heap[i], heap[j])]. *)
Definition swap (hp : list Z) (i j : nat) : list Z :=
  <[j := hp !!! i]> (<[i := hp !!! j]> hp).

(** The loop of [add].  The local [parent] is [index / 2] whenever the
    condition is evaluated (it is set to [realSize / 2] when [index] is
    [realSize], and to [index / 2] after each move), so it is not carried.
    [&&] is short-circuit: slot 0 is not read when [index] is 1. *)
Equations? bubble_up (v : variant) (hp : list Z) (index : nat) : list Z
  by wf index lt :=
  bubble_up v hp index
    with inspect ((1 <? index) && beats v (hp !!! index) (hp !!! (index / 2))) := {
    | exist _ true _ => bubble_up v (swap hp index (index / 2)) (index / 2);
    | exist _ false _ => hp }.
Proof.
  apply andb_prop in e as [Hi _]. apply Nat.ltb_lt in Hi.
  change (index / 2 < index). apply Nat.div_lt; lia.
Qed.

(** [add]. *)
Definition add (v : variant) (element : Z) (s : state) : state * console :=
  let realSize1 := realSize s + 1 in
  if heapSize s <? realSize1 then
    ({| heap := heap s; heapSize := heapSize s; realSize := realSize1 - 1 |},
     ["Added too many Elements!"%string])
  else
    let hp := <[realSize1 := element]> (heap s) in
    ({| heap := bubble_up v hp realSize1;
        heapSize := heapSize s;
        realSize := realSize1 |}, []).

(** [peek], a [const] member: the state is not part of its result.  The
    two classes have the same [peek], [size] and [toString]. *)
Definition peek (s : state) : Z * console :=
  if realSize s <? 1 then (INT_MAX, ["Don't have any element"%string])
  else (heap s !!! 1, []).

(** The loop of [pop]; [n] is [realSize] after the decrement.  The loop is
    run on [fuel]; [bubble_down_fuel] and [pop_loop_fuel] show that the
    fuel [pop] gives it is never used up: the loop ends on its own
    condition or on a [break]. *)
Fixpoint bubble_down (fuel : nat) (v : variant) (n : nat) (hp : list Z)
    (index : nat) : list Z :=
  match fuel with
  | 0 => hp
  | S fuel' =>
    if index <=? n / 2 then
      let left := index * 2 in
      let right := left + 1 in
      if n <? right then
        if loses v (hp !!! index) (hp !!! left) then
          bubble_down fuel' v n (swap hp index left) left
        else hp
      else
        if loses v (hp !!! index) (hp !!! left)
           || loses v (hp !!! index) (hp !!! right) then
          if beats v (hp !!! left) (hp !!! right) then
            bubble_down fuel' v n (swap hp index left) left
          else
            bubble_down fuel' v n (swap hp index right) right
        else hp
    else hp
  end.

(** [pop]. *)
Definition pop (v : variant) (s : state) : Z * state * console :=
  if realSize s <? 1 then
    (pop_empty v, s, ["Don't have any element"%string])
  else
    let removeElement := heap s !!! 1 in
    let hp := <[1 := heap s !!! realSize s]> (heap s) in
    let realSize1 := realSize s - 1 in
    (removeElement,
     {| heap := bubble_down realSize1 v realSize1 hp 1;
        heapSize := heapSize s;
        realSize := realSize1 |},
     []).

(** [size]. *)
Definition size (s : state) : Z := Z.of_nat (realSize s).

(** The [for] loop of [toString]: [k] iterations are left, [i] is the
    loop variable and [oss] the text streamed so far.  [oss << heap[i]]
    writes the decimal numeral of an [int]. *)
Fixpoint toString_loop (k : nat) (s : state) (i : nat) (oss : string) : string :=
  match k with
  | 0 => oss
  | S k' =>
    let oss1 := oss +:+ pretty (heap s !!! i) in
    let oss2 := if i <? realSize s then oss1 +:+ "," else oss1 in
    toString_loop k' s (i + 1) oss2
  end.

(** [toString]. *)
Definition toString (s : state) : string :=
  if realSize s =? 0 then "No element!"%string
  else toString_loop (realSize s) s 1 "[" +:+ "]".

(** ** Sequences of calls *)

(** A call of a public member. *)
Inductive op : Set :=
| Add (element : Z)
| Pop
| Peek
| Size
| ToString.

(** What a call hands back to its caller: nothing ([void]), an [int] or a
    [string]. *)
Inductive value : Set :=
| VVoid
| VInt (z : Z)
| VString (str : string).

(** One call: the state after it, the value returned and the lines written
    to [cout]. *)
Definition step (v : variant) (o : op) (s : state) : state * (value * console) :=
  match o with
  | Add element => let '(s', out) := add v element s in (s', (VVoid, out))
  | Pop => let '(r, s', out) := pop v s in (s', (VInt r, out))
  | Peek => let '(r, out) := peek s in (s, (VInt r, out))
  | Size => (s, (VInt (size s), []))
  | ToString => (s, (VString (toString s), []))
  end.

(** A sequence of calls, first to last, with the log of what each
    returned and printed. *)
Fixpoint run (v : variant) (ops : list op) (s : state)
    : state * list (value * console) :=
  match ops with
  | [] => (s, [])
  | o :: ops' =>
    let '(s1, r) := step v o s in
    let '(s2, log) := run v ops' s1 in
    (s2, r :: log)
  end.

(** The state reached by a sequence of calls, and the values returned. *)
Definition exec (v : variant) (ops : list op) (s : state) : state :=
  fst (run v ops s).
Definition returns (v : variant) (ops : list op) (s : state) : list value :=
  fst <$> snd (run v ops s).

(** ** Specification vocabulary *)

(** [order v a b]: [a] may sit above [b]: [>=] in a max-heap, [<=] in a
    min-heap. *)
Definition order (v : variant) (a b : Z) : Prop :=
  match v with
  | MaxHeap => (a >= b)%Z
  | MinHeap => (a <= b)%Z
  end.

(** The heap property over the slots [1 .. n] of a vector. *)
Definition heap_ordered (v : variant) (n : nat) (hp : list Z) : Prop :=
  ∀ i, 2 ≤ i ≤ n → order v (hp !!! (i / 2)) (hp !!! i).

Definition heap_property (v : variant) (s : state) : Prop :=
  heap_ordered v (realSize s) (heap s).

(** The states the class can be in: the vector has the length the
    constructor gave it and [realSize] is within the capacity. *)
Definition wf (s : state) : Prop :=
  length (heap s) = heapSize s + 1 ∧ realSize s ≤ heapSize s.

(** The stored elements, slots [1 .. realSize], in array order. *)
Definition elements (s : state) : list Z :=
  take (realSize s) (drop 1 (heap s)).

(** The text of a sequence of [int]s as [toString] lays it out: decimal
    numerals separated by commas, in brackets. *)
Definition bracketed (xs : list Z) : string :=
  "[" +:+ String.concat "," (pretty <$> xs) +:+ "]".

(** A call succeeds when it passes the guard of its member: [add] when
    [realSize > heapSize] is false after the increment, [peek] and [pop]
    when [realSize < 1] is false.  [size] and [toString] have no guard. *)
Definition succeeds (o : op) (s : state) : bool :=
  match o with
  | Add _ => negb (heapSize s <? realSize s + 1)
  | Pop | Peek => negb (realSize s <? 1)
  | Size | ToString => true
  end.

(** The number of successful [add]s, and of successful [pop]s, in a
    sequence of calls started in [s]. *)
Fixpoint inserted (v : variant) (ops : list op) (s : state) : nat :=
  match ops with
  | [] => 0
  | o :: ops' =>
    (match o with Add _ => if succeeds o s then 1 else 0 | _ => 0 end)
    + inserted v ops' (step v o s).1
  end.

Fixpoint extracted (v : variant) (ops : list op) (s : state) : nat :=
  match ops with
  | [] => 0
  | o :: ops' =>
    (match o with Pop => if succeeds o s then 1 else 0 | _ => 0 end)
    + extracted v ops' (step v o s).1
  end.

(** Two calls of the same member. *)
Definition same_member (o o' : op) : bool :=
  match o, o' with
  | Add _, Add _ | Pop, Pop | Peek, Peek | Size, Size | ToString, ToString => true
  | _, _ => false
  end.

(** A failure of call [o] in state [s] is reported to the caller when the
    value handed back is one that no successful call of that member hands
    back: the caller can tell the failure from the value alone. *)
Definition reports_failure (v : variant) (o : op) (s : state) : Prop :=
  ∀ o' s', same_member o o' = true → wf s' → succeeds o' s' = true →
    (step v o' s').2.1 ≠ (step v o s).2.1.

(** Two vectors that agree on the slots [1 .. n]. *)
Definition agree_slots (n : nat) (hp1 hp2 : list Z) : Prop :=
  ∀ i, 1 ≤ i ≤ n → hp1 !!! i = hp2 !!! i.

(** Two states that agree on [realSize] and on the slots [1 .. realSize]. *)
Definition agree_on_stored (s1 s2 : state) : Prop :=
  realSize s1 = realSize s2
  ∧ ∀ i, 1 ≤ i ≤ realSize s1 → heap s1 !!! i = heap s2 !!! i.

(** ** The vector accesses, checked *)

(** [heap[i]] is defined only for [i < heap.size()].  The members once
    more, with every access they make to the vector checked, and with
    their loops limited to a number of turns: the result is [None] when an
    index is out of range or when a loop asks for one more turn. *)
Definition write (hp : list Z) (i : nat) (x : Z) : option (list Z) :=
  if i <? length hp then Some (<[i := x]> hp) else None.

(** [swap(heap[i], heap[j])]: both slots are read, then both written. *)
Definition swap_checked (hp : list Z) (i j : nat) : option (list Z) :=
  a ← hp !! i; b ← hp !! j; hp1 ← write hp i b; write hp1 j a.


(** The loop of [add]; [heap[index]] and [heap[parent]] are read only
    when [index > 1]. *)
Fixpoint bubble_up_checked (turns : nat) (v : variant) (hp : list Z)
    (index : nat) : option (list Z) :=
  match turns with
  | 0 => None
  | S turns' =>
    if 1 <? index then
      a ← hp !! index; b ← hp !! (index / 2);
      if beats v a b then
        hp1 ← swap_checked hp index (index / 2);
        bubble_up_checked turns' v hp1 (index / 2)
      else Some hp
    else Some hp
  end.



(** The loop of [pop].  With both children in range, [heap[right]] is read
    by the second operand of [||] or, when the first operand holds, by the
    inner test. *)
Fixpoint bubble_down_checked (turns : nat) (v : variant) (n : nat)
    (hp : list Z) (index : nat) : option (list Z) :=
  match turns with
  | 0 => None
  | S turns' =>
    if index <=? n / 2 then
      let left := index * 2 in
      let right := left + 1 in
      if n <? right then
        a ← hp !! index; l ← hp !! left;
        if loses v a l then
          hp1 ← swap_checked hp index left;
          bubble_down_checked turns' v n hp1 left
        else Some hp
      else
        a ← hp !! index; l ← hp !! left; r ← hp !! right;
        if loses v a l || loses v a r then
          if beats v l r then
            hp1 ← swap_checked hp index left;
            bubble_down_checked turns' v n hp1 left
          else
            hp1 ← swap_checked hp index right;
            bubble_down_checked turns' v n hp1 right
        else Some hp
    else Some hp
  end.






(** ** More vocabulary *)

(** Of two elements, the one that goes on top; the second on a tie. *)
Definition better (v : variant) (a b : Z) : Z :=
  if beats v a b then a else b.

(** The slots [1 .. n] of the second vector are the images under [f] of
    those of the first. *)
Definition image_slots (f : Z → Z) (n : nat) (hp1 hp2 : list Z) : Prop :=
  ∀ i, 1 ≤ i ≤ n → hp2 !!! i = f (hp1 !!! i).

(** The order-reversing bijection [x ↦ ~x] of [int], and a call with its
    element reversed. *)
Definition mirror (x : Z) : Z := Z.lnot x.

Definition mirror_op (o : op) : op :=
  match o with
  | Add element => Add (mirror element)
  | _ => o
  end.

(** The other class. *)
Definition opposite (v : variant) : variant :=
  match v with
  | MaxHeap => MinHeap
  | MinHeap => MaxHeap
  end.

(** Two states of the same capacity and size whose stored slots are
    mirror images. *)
Definition mirrored (s1 s2 : state) : Prop :=
  heapSize s1 = heapSize s2
  ∧ realSize s1 = realSize s2
  ∧ image_slots mirror (realSize s1) (heap s1) (heap s2).

(** A text without the separators [toString] writes: no comma and no
    closing bracket. *)
Fixpoint plain (str : string) : bool :=
  match str with
  | EmptyString => true
  | String c str' =>
    negb (Ascii.eqb c ","%char) && negb (Ascii.eqb c "]"%char) && plain str'
  end.

(** The lines the calls of a sequence write to [cout]. *)
Definition outputs (v : variant) (ops : list op) (s : state) : list console :=
  snd <$> snd (run v ops s).

(** ** The order *)

Section Order.
Context (v : variant).
Implicit Types a b c : Z.

Lemma order_refl a : order v a a.
Proof. destruct v; simpl; lia. Qed.

Lemma order_trans a b c : order v a b → order v b c → order v a c.
Proof. destruct v; simpl; lia. Qed.

(** The strict tests of the code against the order. *)
Lemma beats_order a b : beats v a b = true → order v a b.
Proof. destruct v; simpl; lia. Qed.

Lemma not_beats_order a b : beats v a b = false → order v b a.
Proof. destruct v; simpl; lia. Qed.

Lemma loses_order a b : loses v a b = true → order v b a.
Proof. destruct v; simpl; lia. Qed.

Lemma not_loses_order a b : loses v a b = false → order v a b.
Proof. destruct v; simpl; lia. Qed.

Lemma loses_beats a b : loses v a b = beats v b a.
Proof. destruct v; simpl; lia. Qed.

Global Instance order_preorder : PreOrder (order v).
Proof. split; [intros a; apply order_refl | intros a b c; apply order_trans]. Qed.

Global Instance order_dec a b : Decision (order v a b).
Proof. destruct v; simpl; apply _. Defined.
End Order.

(** ** Vector accesses *)

Lemma swap_length hp i j : length (swap hp i j) = length hp.
Proof. unfold swap. by rewrite !length_insert. Qed.

Lemma swap_lookup hp i j k :
  i < length hp → j < length hp →
  swap hp i j !!! k =
    if decide (k = j) then hp !!! i
    else if decide (k = i) then hp !!! j else hp !!! k.
Proof.
  intros Hi Hj. unfold swap.
  rewrite !list_lookup_total_insert, length_insert.
  repeat case_decide; destruct_and?; subst; try done; lia.
Qed.

Lemma swap_Permutation hp i j :
  i < length hp → j < length hp → swap hp i j ≡ₚ hp.
Proof.
  intros Hi Hj. unfold swap.
  apply Permutation_insert_swap; by apply list_lookup_lookup_total_lt.
Qed.

(** ** The loop of [add] *)

Lemma bubble_up_eq v hp index :
  bubble_up v hp index =
    if (1 <? index) && beats v (hp !!! index) (hp !!! (index / 2))
    then bubble_up v (swap hp index (index / 2)) (index / 2)
    else hp.
Proof.
  rewrite bubble_up_equation_1.
  generalize (inspect ((1 <? index) && beats v (hp !!! index) (hp !!! (index / 2)))).
  intros [[] e]; cbn [bubble_up_unfold_clause_1]; rewrite e; reflexivity.
Qed.

(** [lia] is to know the index arithmetic [i / 2]. *)
Ltac Zify.zify_post_hook ::= Z.to_euclidean_division_equations.

(** The element at [k] is the only one that may be out of place with
    respect to its parent: the loop moves it up until the whole range is
    ordered. *)
Lemma bubble_up_ordered v n : ∀ k hp,
  1 ≤ k ≤ n → n < length hp →
  (∀ i, 2 ≤ i ≤ n → i ≠ k → order v (hp !!! (i / 2)) (hp !!! i)) →
  (∀ c, 2 ≤ c ≤ n → c / 2 = k → 2 ≤ k → order v (hp !!! (k / 2)) (hp !!! c)) →
  heap_ordered v n (bubble_up v hp k).
Proof.
  intros k. induction (lt_wf k) as [k _ IH]. intros hp Hk Hlen Ha Hb.
  rewrite bubble_up_eq. destruct (1 <? k) eqn:H1; cbn [andb].
  2: { apply Nat.ltb_ge in H1. intros i Hi. apply Ha; lia. }
  apply Nat.ltb_lt in H1.
  destruct (beats v (hp !!! k) (hp !!! (k / 2))) eqn:Hbt.
  - apply beats_order in Hbt.
    assert (Hp : 1 ≤ k / 2 < k) by lia.
    apply IH; [lia | lia | by rewrite swap_length | |].
    + intros i Hi Hne. rewrite !swap_lookup by lia.
      repeat case_decide; try lia; subst.
      * done.
      * etrans; [exact Hbt|]. rewrite <- H. by apply Ha.
      * apply Hb; lia.
      * by apply Ha.
    + intros c Hc Hpar Hpp. rewrite !swap_lookup by lia.
      repeat case_decide; try lia; subst.
      * apply Ha; lia.
      * etrans; [apply (Ha (k / 2)); lia|]. rewrite <- Hpar. apply Ha; lia.
  - apply not_beats_order in Hbt. intros i Hi.
    destruct (decide (i = k)) as [->|]; [done | by apply Ha].
Qed.

(** A successful [add] stores the element in slot [realSize + 1] and runs
    the loop from there; a refused one leaves the object as it was. *)
Lemma add_room v x s :
  realSize s < heapSize s →
  add v x s =
    ({| heap := bubble_up v (<[realSize s + 1 := x]> (heap s)) (realSize s + 1);
        heapSize := heapSize s;
        realSize := realSize s + 1 |}, []).
Proof.
  intros H. unfold add.
  destruct (heapSize s <? realSize s + 1) eqn:E; [apply Nat.ltb_lt in E; lia | done].
Qed.

Lemma add_full v x s :
  heapSize s ≤ realSize s →
  add v x s = (s, ["Added too many Elements!"%string]).
Proof.
  intros H. unfold add.
  destruct (heapSize s <? realSize s + 1) eqn:E; [|apply Nat.ltb_ge in E; lia].
  destruct s as [hp c n]; simpl in *. do 2 f_equal. lia.
Qed.

Lemma bubble_up_length v : ∀ k hp, length (bubble_up v hp k) = length hp.
Proof.
  intros k. induction (lt_wf k) as [k _ IH]. intros hp.
  rewrite bubble_up_eq.
  destruct ((1 <? k) && beats v (hp !!! k) (hp !!! (k / 2))) eqn:E; [|done].
  apply andb_prop in E as [E _]. apply Nat.ltb_lt in E.
  rewrite IH by lia. apply swap_length.
Qed.

Lemma add_wf v x s : wf s → wf (fst (add v x s)).
Proof.
  intros [Hl Hn]. destruct (decide (realSize s < heapSize s)).
  - rewrite add_room by done. split; simpl; [|lia].
    by rewrite bubble_up_length, length_insert.
  - rewrite add_full by lia. done.
Qed.

Lemma add_heap_property v x s :
  wf s → heap_property v s → heap_property v (fst (add v x s)).
Proof.
  intros [Hl Hn] Hh. destruct (decide (realSize s < heapSize s)).
  2: { rewrite add_full by lia. done. }
  rewrite add_room by done. unfold heap_property; simpl.
  apply bubble_up_ordered; [lia | rewrite length_insert; lia | |].
  - intros i Hi Hne. rewrite !list_lookup_total_insert_ne by lia.
    apply Hh. lia.
  - intros c Hc Hpar _. lia.
Qed.

(** ** The loop of [pop] *)

(** An ordering fact between two slots, up to index arithmetic. *)
Lemma order_at v (hp : list Z) a b a' b' :
  order v (hp !!! a') (hp !!! b') → a = a' → b = b' →
  order v (hp !!! a) (hp !!! b).
Proof. by intros ? -> ->. Qed.

Local Ltac known H := eapply order_at; [exact H | lia | lia].
Local Ltac use H j := eapply order_at; [apply (H j); lia | lia | lia].

(** One turn of the loop. *)
Lemma bubble_down_S fuel v n hp index :
  bubble_down (S fuel) v n hp index =
    if index <=? n / 2 then
      if n <? index * 2 + 1 then
        if loses v (hp !!! index) (hp !!! (index * 2)) then
          bubble_down fuel v n (swap hp index (index * 2)) (index * 2)
        else hp
      else
        if loses v (hp !!! index) (hp !!! (index * 2))
           || loses v (hp !!! index) (hp !!! (index * 2 + 1)) then
          if beats v (hp !!! (index * 2)) (hp !!! (index * 2 + 1)) then
            bubble_down fuel v n (swap hp index (index * 2)) (index * 2)
          else
            bubble_down fuel v n (swap hp index (index * 2 + 1)) (index * 2 + 1)
        else hp
    else hp.
Proof. reflexivity. Qed.

(** From the root, or any node [index >= 1], the loop ends on its own
    condition once the fuel exceeds [n - index]: more fuel changes
    nothing.  [pop] starts it at index 1 with fuel [n]. *)
Lemma bubble_down_fuel v n : ∀ fuel extra hp index,
  1 ≤ index → n < fuel + index →
  bubble_down (fuel + extra) v n hp index = bubble_down fuel v n hp index.
Proof.
  induction fuel as [|fuel IH]; intros extra hp index Hi Hf.
  - destruct extra as [|extra]; [done|].
    cbn [Nat.add]. rewrite bubble_down_S.
    destruct (index <=? n / 2) eqn:E; [apply Nat.leb_le in E; lia | done].
  - cbn [Nat.add]. rewrite !bubble_down_S.
    destruct (index <=? n / 2) eqn:E; [|done].
    rewrite !IH by lia. done.
Qed.

(** The loop as [pop] runs it: from the root, on fuel [n]. *)
Lemma pop_loop_fuel v n hp extra :
  bubble_down (n + extra) v n hp 1 = bubble_down n v n hp 1.
Proof. apply bubble_down_fuel; lia. Qed.

Lemma bubble_down_length v n : ∀ fuel hp index,
  length (bubble_down fuel v n hp index) = length hp.
Proof.
  induction fuel as [|fuel IH]; intros hp index; [done|].
  rewrite bubble_down_S.
  repeat case_match; rewrite ?IH, ?swap_length; done.
Qed.

(** The node at [k] is the only one that may be out of place with respect
    to its children: the loop moves it down until the whole range is
    ordered. *)
Lemma bubble_down_ordered v n : ∀ fuel k hp,
  1 ≤ k → n < fuel + k → n < length hp →
  (∀ i, 2 ≤ i ≤ n → i / 2 ≠ k → order v (hp !!! (i / 2)) (hp !!! i)) →
  (∀ c, 2 ≤ c ≤ n → c / 2 = k → 2 ≤ k → order v (hp !!! (k / 2)) (hp !!! c)) →
  heap_ordered v n (bubble_down fuel v n hp k).
Proof.
  induction fuel as [|fuel IH]; intros k hp Hk Hf Hlen Ha Hb.
  { intros i Hi. apply Ha; lia. }
  rewrite bubble_down_S.
  destruct (k <=? n / 2) eqn:E.
  2: { apply Nat.leb_gt in E. intros i Hi. apply Ha; lia. }
  apply Nat.leb_le in E.
  destruct (n <? k * 2 + 1) eqn:E1.
  - apply Nat.ltb_lt in E1.
    destruct (loses v (hp !!! k) (hp !!! (k * 2))) eqn:Hl.
    + apply loses_order in Hl.
      apply IH; [lia | lia | by rewrite swap_length | |].
      * intros i Hi Hne. rewrite !swap_lookup by lia.
        repeat case_decide; try lia;
          first [known Hl | use Hb (k * 2) | use Ha i].
      * intros c Hc Hpar Hpp. lia.
    + apply not_loses_order in Hl. intros i Hi.
      destruct (decide (i / 2 = k)); [known Hl | use Ha i].
  - apply Nat.ltb_ge in E1.
    destruct (loses v (hp !!! k) (hp !!! (k * 2))
              || loses v (hp !!! k) (hp !!! (k * 2 + 1))) eqn:Hl.
    + apply orb_true_iff in Hl.
      destruct (beats v (hp !!! (k * 2)) (hp !!! (k * 2 + 1))) eqn:Hlr.
      * assert (Hlk : order v (hp !!! (k * 2)) (hp !!! k)).
        { destruct Hl as [Hl|Hl]; [by apply loses_order|].
          etrans; [by apply beats_order | by apply loses_order]. }
        apply beats_order in Hlr.
        apply IH; [lia | lia | by rewrite swap_length | |].
        -- intros i Hi Hne. rewrite !swap_lookup by lia.
           repeat case_decide; try lia;
             first [known Hlk | known Hlr | use Hb (k * 2) | use Ha i].
        -- intros c Hc Hpar Hpp. rewrite !swap_lookup by lia.
           repeat case_decide; try lia; use Ha c.
      * assert (Hrk : order v (hp !!! (k * 2 + 1)) (hp !!! k)).
        { destruct Hl as [Hl|Hl]; [|by apply loses_order].
          etrans; [by apply not_beats_order | by apply loses_order]. }
        apply not_beats_order in Hlr.
        apply IH; [lia | lia | by rewrite swap_length | |].
        -- intros i Hi Hne. rewrite !swap_lookup by lia.
           repeat case_decide; try lia;
             first [known Hrk | known Hlr | use Hb (k * 2 + 1) | use Ha i].
        -- intros c Hc Hpar Hpp. rewrite !swap_lookup by lia.
           repeat case_decide; try lia; use Ha c.
    + apply orb_false_iff in Hl as [Hl Hr].
      apply not_loses_order in Hl, Hr. intros i Hi.
      destruct (decide (i / 2 = k)); [|use Ha i].
      destruct (decide (i = k * 2)); [known Hl | known Hr].
Qed.

(** A successful [pop] returns slot 1, moves the last element there and
    runs the loop from the root; a refused one leaves the object as it
    was. *)
Lemma pop_nonempty v s :
  1 ≤ realSize s →
  pop v s =
    (heap s !!! 1,
     {| heap := bubble_down (realSize s - 1) v (realSize s - 1)
                  (<[1 := heap s !!! realSize s]> (heap s)) 1;
        heapSize := heapSize s;
        realSize := realSize s - 1 |},
     []).
Proof.
  intros H. unfold pop.
  destruct (realSize s <? 1) eqn:E; [apply Nat.ltb_lt in E; lia | done].
Qed.

Lemma pop_empty_heap v s :
  realSize s = 0 →
  pop v s = (pop_empty v, s, ["Don't have any element"%string]).
Proof. intros H. unfold pop. by rewrite H. Qed.

Lemma pop_wf v s : wf s → wf (pop v s).1.2.
Proof.
  intros [Hl Hn]. destruct (decide (1 ≤ realSize s)).
  - rewrite pop_nonempty by done. split; simpl; [|lia].
    by rewrite bubble_down_length, length_insert.
  - rewrite pop_empty_heap by lia. done.
Qed.

Lemma pop_heap_property v s :
  wf s → heap_property v s → heap_property v (pop v s).1.2.
Proof.
  intros [Hl Hn] Hh. destruct (decide (1 ≤ realSize s)).
  2: { rewrite pop_empty_heap by lia. done. }
  rewrite pop_nonempty by done. unfold heap_property; simpl.
  apply bubble_down_ordered; [lia | lia | rewrite length_insert; lia | |].
  - intros i Hi Hne. rewrite !list_lookup_total_insert_ne by lia.
    apply Hh. lia.
  - intros c Hc Hpar ?. lia.
Qed.

(** ** The stored elements as a multiset *)

Lemma swap_elements hp i j n :
  1 ≤ i ≤ n → 1 ≤ j ≤ n → n < length hp →
  take n (drop 1 (swap hp i j)) ≡ₚ take n (drop 1 hp).
Proof.
  intros Hi Hj Hn.
  assert (take n (drop 1 (swap hp i j)) = swap (take n (drop 1 hp)) (i - 1) (j - 1))
    as ->.
  { unfold swap.
    rewrite !drop_insert_ge, !take_insert_lt by lia.
    rewrite !lookup_total_take_lt, !lookup_total_drop by lia.
    do 2 f_equal; f_equal; lia. }
  apply swap_Permutation; rewrite length_take, length_drop; lia.
Qed.

Lemma bubble_up_elements v n : ∀ k hp,
  k ≤ n → n < length hp →
  take n (drop 1 (bubble_up v hp k)) ≡ₚ take n (drop 1 hp).
Proof.
  intros k. induction (lt_wf k) as [k _ IH]. intros hp Hk Hn.
  rewrite bubble_up_eq.
  destruct ((1 <? k) && beats v (hp !!! k) (hp !!! (k / 2))) eqn:E; [|done].
  apply andb_prop in E as [E _]. apply Nat.ltb_lt in E.
  rewrite IH by (rewrite ?swap_length; lia).
  apply swap_elements; lia.
Qed.

Lemma bubble_down_elements v n : ∀ fuel k hp,
  1 ≤ k → n < length hp →
  take n (drop 1 (bubble_down fuel v n hp k)) ≡ₚ take n (drop 1 hp).
Proof.
  induction fuel as [|fuel IH]; intros k hp Hk Hn; [done|].
  rewrite bubble_down_S.
  destruct (k <=? n / 2) eqn:E; [apply Nat.leb_le in E | done].
  destruct (n <? k * 2 + 1) eqn:E1;
    [apply Nat.ltb_lt in E1 | apply Nat.ltb_ge in E1].
  all: repeat case_match; try done.
  all: rewrite IH by (rewrite ?swap_length; lia); apply swap_elements; lia.
Qed.

Lemma add_elements v x s :
  wf s → realSize s < heapSize s →
  elements (fst (add v x s)) ≡ₚ x :: elements s.
Proof.
  intros [Hl Hn] Hroom. rewrite add_room by done. unfold elements; simpl.
  rewrite bubble_up_elements by (rewrite ?length_insert; lia).
  rewrite drop_insert_ge by lia.
  replace (realSize s + 1) with (S (realSize s)) by lia.
  erewrite take_S_r.
  2: { replace (S (realSize s) - 1) with (realSize s) by lia.
       apply list_lookup_insert_eq. rewrite length_drop. lia. }
  replace (S (realSize s) - 1) with (realSize s) by lia.
  rewrite take_insert_ge by lia.
  by rewrite Permutation_app_comm.
Qed.

Lemma pop_elements v s :
  wf s → 1 ≤ realSize s →
  elements s ≡ₚ (pop v s).1.1 :: elements (pop v s).1.2.
Proof.
  intros [Hl Hn] Hne. rewrite pop_nonempty by done. unfold elements; simpl.
  rewrite bubble_down_elements by (rewrite ?length_insert; lia).
  destruct (heap s) as [|d [|a l]] eqn:Hhp; simpl in Hl; try lia.
  destruct (realSize s) as [|m] eqn:Hm; [lia|].
  cbn [drop take lookup_total list_lookup_total]. simpl.
  rewrite Nat.sub_0_r.
  destruct m as [|m]; [done|].
  cbn. rewrite (take_S_r l m (l !!! m)).
  2: { apply list_lookup_lookup_total_lt. lia. }
  by rewrite Permutation_app_comm.
Qed.

(** ** The root is the extreme element *)

Lemma heap_root_extreme v n hp :
  heap_ordered v n hp → ∀ i, 1 ≤ i ≤ n → order v (hp !!! 1) (hp !!! i).
Proof.
  intros Hh i. induction (lt_wf i) as [i _ IH]. intros Hi.
  destruct (decide (i = 1)) as [->|]; [apply order_refl|].
  etrans; [apply (IH (i / 2)); lia | apply Hh; lia].
Qed.

Lemma root_order_elements v s :
  wf s → heap_property v s →
  Forall (order v (heap s !!! 1)) (elements s).
Proof.
  intros [Hl Hn] Hh. apply Forall_forall. intros x Hx.
  apply list_elem_of_lookup in Hx as [j Hj].
  unfold elements in Hj. apply lookup_take_Some in Hj as [Hj Hlt].
  rewrite lookup_drop in Hj.
  apply list_lookup_total_correct in Hj as <-.
  apply (heap_root_extreme v (realSize s)); [done | lia].
Qed.

(** ** Sequences of calls *)

Lemma run_cons v o ops s :
  run v (o :: ops) s =
    ((run v ops (step v o s).1).1, (step v o s).2 :: (run v ops (step v o s).1).2).
Proof.
  cbn [run]. destruct (step v o s) as [s1 r]; simpl.
  by destruct (run v ops s1).
Qed.

Lemma exec_nil v s : exec v [] s = s.
Proof. done. Qed.

Lemma exec_cons v o ops s : exec v (o :: ops) s = exec v ops (step v o s).1.
Proof. unfold exec. by rewrite run_cons. Qed.

Lemma exec_app v ops1 ops2 s :
  exec v (ops1 ++ ops2) s = exec v ops2 (exec v ops1 s).
Proof.
  revert s. induction ops1 as [|o ops1 IH]; intros s; [done|].
  by rewrite <- app_comm_cons, !exec_cons, IH.
Qed.

Lemma returns_cons v o ops s :
  returns v (o :: ops) s = (step v o s).2.1 :: returns v ops (step v o s).1.
Proof. unfold returns. by rewrite run_cons. Qed.

Lemma returns_app v ops1 ops2 s :
  returns v (ops1 ++ ops2) s = returns v ops1 s ++ returns v ops2 (exec v ops1 s).
Proof.
  revert s. induction ops1 as [|o ops1 IH]; intros s; [done|].
  by rewrite <- app_comm_cons, !returns_cons, exec_cons, IH.
Qed.

Lemma step_Add v x s : step v (Add x) s = ((add v x s).1, (VVoid, (add v x s).2)).
Proof. simpl. by destruct (add v x s). Qed.

Lemma step_Pop v s : step v Pop s = ((pop v s).1.2, (VInt (pop v s).1.1, (pop v s).2)).
Proof. simpl. by destruct (pop v s) as [[r s'] out]. Qed.

Lemma step_Peek v s : step v Peek s = (s, (VInt (peek s).1, (peek s).2)).
Proof. simpl. by destruct (peek s). Qed.

(** Every call keeps the object well formed and ordered. *)
Lemma step_wf v o s : wf s → wf (step v o s).1.
Proof.
  intros Hwf. destruct o.
  - rewrite step_Add. by apply add_wf.
  - rewrite step_Pop. by apply pop_wf.
  - by rewrite step_Peek.
  - done.
  - done.
Qed.

Lemma step_heap_property v o s :
  wf s → heap_property v s → heap_property v (step v o s).1.
Proof.
  intros Hwf Hh. destruct o.
  - rewrite step_Add. by apply add_heap_property.
  - rewrite step_Pop. by apply pop_heap_property.
  - by rewrite step_Peek.
  - done.
  - done.
Qed.

Lemma new_wf capacity : wf (new capacity).
Proof. split; simpl; [|lia]. by rewrite length_insert, length_replicate. Qed.

Lemma new_heap_property v capacity : heap_property v (new capacity).
Proof. intros i Hi. simpl in Hi. lia. Qed.

Lemma exec_wf v ops : ∀ s, wf s → wf (exec v ops s).
Proof.
  induction ops as [|o ops IH]; intros s Hwf; [done|].
  rewrite exec_cons. by apply IH, step_wf.
Qed.

Lemma exec_heap_property v ops : ∀ s,
  wf s → heap_property v s → heap_property v (exec v ops s).
Proof.
  induction ops as [|o ops IH]; intros s Hwf Hh; [done|].
  rewrite exec_cons. apply IH; [by apply step_wf | by apply step_heap_property].
Qed.

(** A run of [add]s that fits in the remaining room stores exactly the
    given elements, and each call returns nothing. *)
Lemma adds_elements v xs : ∀ s,
  wf s → realSize s + length xs ≤ heapSize s →
  elements (exec v (Add <$> xs) s) ≡ₚ xs ++ elements s
  ∧ realSize (exec v (Add <$> xs) s) = realSize s + length xs
  ∧ returns v (Add <$> xs) s = replicate (length xs) VVoid.
Proof.
  induction xs as [|x xs IH]; intros s Hwf Hroom; [simpl; auto with lia|].
  simpl in Hroom. rewrite fmap_cons, exec_cons, returns_cons, step_Add. simpl.
  destruct (IH (add v x s).1) as (Hp & Hn & Hr).
  { by apply add_wf. }
  { rewrite add_room by lia. simpl. lia. }
  split_and!.
  - rewrite Hp, add_elements by (done || lia).
    by rewrite Permutation_middle.
  - rewrite Hn, add_room by lia. simpl. lia.
  - by rewrite Hr.
Qed.

(** Emptying an ordered heap returns its elements in order. *)
Lemma pops_sorted v n : ∀ s,
  wf s → heap_property v s → realSize s = n →
  ∃ ys, returns v (replicate n Pop) s = VInt <$> ys
        ∧ StronglySorted (order v) ys
        ∧ ys ≡ₚ elements s.
Proof.
  induction n as [|n IH]; intros s Hwf Hh Hn.
  { exists []. split_and!; [done | constructor |].
    unfold elements. by rewrite Hn. }
  destruct (IH (pop v s).1.2) as (ys & Hr & Hs & Hp).
  { by apply pop_wf. }
  { by apply pop_heap_property. }
  { rewrite pop_nonempty by lia. simpl. lia. }
  exists ((pop v s).1.1 :: ys). split_and!.
  - cbn [replicate]. rewrite returns_cons, step_Pop.
    cbn [fst snd]. by rewrite Hr.
  - constructor; [done|].
    rewrite Hp.
    pose proof (root_order_elements v s Hwf Hh) as Hroot.
    rewrite (pop_elements v s) in Hroot by (done || lia).
    apply Forall_cons in Hroot as [_ Hroot].
    rewrite pop_nonempty in * by lia. done.
  - rewrite Hp. symmetry. apply pop_elements; [done | lia].
Qed.

(** ** The text of [toString] *)

Lemma string_app_assoc (a b c : string) : (a +:+ b) +:+ c = a +:+ (b +:+ c).
Proof.
  induction a as [|ch a IH]; [done|].
  change (String ch ((a +:+ b) +:+ c) = String ch (a +:+ (b +:+ c))).
  by f_equal.
Qed.

Lemma string_app_nil_r (a : string) : a +:+ "" = a.
Proof.
  induction a as [|ch a IH]; [done|].
  change (String ch (a +:+ "") = String ch a). by f_equal.
Qed.

(** With [k] turns left at index [i], the loop streams the slots
    [i .. i + k - 1], comma-separated. *)
Lemma toString_loop_text s : ∀ k i oss,
  i + k = realSize s + 1 → realSize s < length (heap s) →
  toString_loop k s i oss
  = oss +:+ String.concat "," (pretty <$> take k (drop i (heap s))).
Proof.
  induction k as [|k IH]; intros i oss Hik Hlen.
  { simpl. by rewrite string_app_nil_r. }
  cbn [toString_loop]. rewrite IH by lia.
  rewrite (drop_S (heap s) (heap s !!! i) i)
    by (apply list_lookup_lookup_total_lt; lia).
  cbn [take fmap list_fmap].
  replace (i + 1) with (S i) by lia.
  destruct k as [|k].
  - assert ((i <? realSize s) = false) as -> by (apply Nat.ltb_ge; lia).
    simpl. by rewrite string_app_nil_r.
  - assert ((i <? realSize s) = true) as -> by (apply Nat.ltb_lt; lia).
    rewrite (drop_S (heap s) (heap s !!! S i) (S i))
      by (apply list_lookup_lookup_total_lt; lia).
    cbn [take fmap list_fmap String.concat].
    by rewrite !string_app_assoc.
Qed.

Lemma toString_nonempty s :
  wf s → realSize s ≠ 0 → toString s = bracketed (elements s).
Proof.
  intros [Hl Hn] Hne. unfold toString, bracketed, elements.
  destruct (realSize s =? 0) eqn:E; [apply Nat.eqb_eq in E; lia|].
  rewrite toString_loop_text by lia. by rewrite string_app_assoc.
Qed.

Lemma toString_empty s : realSize s = 0 → toString s = "No element!"%string.
Proof. intros H. unfold toString. by rewrite H. Qed.

Lemma toString_single s :
  realSize s = 1 → toString s = "[" +:+ pretty (heap s !!! 1) +:+ "]".
Proof.
  intros H. unfold toString. rewrite H. simpl. rewrite H. done.
Qed.

(** ** Successful and refused calls *)

Lemma step_refused v o s : succeeds o s = false → (step v o s).1 = s.
Proof.
  destruct o; simpl; try done.
  - intros H%negb_false_iff%Nat.ltb_lt.
    rewrite add_full by lia. done.
  - intros H%negb_false_iff%Nat.ltb_lt.
    rewrite pop_empty_heap by lia. done.
  - by destruct (peek s).
Qed.

(** A call is refused exactly when it writes its complaint to [cout]. *)
Lemma succeeds_console v o s : succeeds o s = true ↔ (step v o s).2.2 = [].
Proof.
  destruct o; simpl; try done.
  - unfold add. by destruct (heapSize s <? realSize s + 1).
  - unfold pop. by destruct (realSize s <? 1).
  - unfold peek. by destruct (realSize s <? 1).
Qed.

Lemma step_realSize v o s :
  realSize (step v o s).1
  + (match o with Pop => if succeeds o s then 1 else 0 | _ => 0 end)
  = realSize s
  + (match o with Add _ => if succeeds o s then 1 else 0 | _ => 0 end).
Proof.
  destruct o; simpl; try lia.
  - unfold add. destruct (heapSize s <? realSize s + 1); simpl; lia.
  - unfold pop. destruct (realSize s <? 1) eqn:E; simpl; [lia|].
    apply Nat.ltb_ge in E. lia.
  - destruct (peek s). simpl. lia.
Qed.

Lemma exec_realSize v ops : ∀ s,
  realSize (exec v ops s) + extracted v ops s = realSize s + inserted v ops s.
Proof.
  induction ops as [|o ops IH]; intros s; [simpl; rewrite exec_nil; lia|].
  rewrite exec_cons. cbn [inserted extracted].
  pose proof (IH (step v o s).1). pose proof (step_realSize v o s). lia.
Qed.

Lemma returns_length v ops : ∀ s, length (returns v ops s) = length ops.
Proof.
  induction ops as [|o ops IH]; intros s; [done|].
  rewrite returns_cons. simpl. by rewrite IH.
Qed.

(** ** Slots beyond [realSize] *)

Lemma swap_agree n hp1 hp2 i j :
  agree_slots n hp1 hp2 → 1 ≤ i ≤ n → 1 ≤ j ≤ n →
  n < length hp1 → n < length hp2 →
  agree_slots n (swap hp1 i j) (swap hp2 i j).
Proof.
  intros Ha Hi Hj H1 H2 k Hk. rewrite !swap_lookup by lia.
  repeat case_decide; apply Ha; lia.
Qed.

Lemma bubble_up_agree v n : ∀ k hp1 hp2,
  agree_slots n hp1 hp2 → 1 ≤ k ≤ n → n < length hp1 → n < length hp2 →
  agree_slots n (bubble_up v hp1 k) (bubble_up v hp2 k).
Proof.
  intros k. induction (lt_wf k) as [k _ IH]. intros hp1 hp2 Ha Hk H1 H2.
  rewrite (bubble_up_eq v hp1), (bubble_up_eq v hp2).
  destruct (1 <? k) eqn:E; cbn [andb]; [|done].
  apply Nat.ltb_lt in E.
  rewrite <- (Ha k), <- (Ha (k / 2)) by lia.
  destruct (beats v (hp1 !!! k) (hp1 !!! (k / 2))); [|done].
  apply IH; rewrite ?swap_length; try lia.
  apply swap_agree; (done || lia).
Qed.

Lemma bubble_down_agree v n : ∀ fuel k hp1 hp2,
  agree_slots n hp1 hp2 → 1 ≤ k → n < length hp1 → n < length hp2 →
  agree_slots n (bubble_down fuel v n hp1 k) (bubble_down fuel v n hp2 k).
Proof.
  induction fuel as [|fuel IH]; intros k hp1 hp2 Ha Hk H1 H2; [done|].
  rewrite !bubble_down_S.
  destruct (k <=? n / 2) eqn:E; [apply Nat.leb_le in E | done].
  rewrite <- (Ha k), <- (Ha (k * 2)) by lia.
  destruct (n <? k * 2 + 1) eqn:E1;
    [apply Nat.ltb_lt in E1 | apply Nat.ltb_ge in E1].
  - destruct (loses v (hp1 !!! k) (hp1 !!! (k * 2))); [|done].
    apply IH; rewrite ?swap_length; try lia.
    apply swap_agree; (done || lia).
  - rewrite <- (Ha (k * 2 + 1)) by lia.
    destruct (loses v (hp1 !!! k) (hp1 !!! (k * 2))
              || loses v (hp1 !!! k) (hp1 !!! (k * 2 + 1))); [|done].
    destruct (beats v (hp1 !!! (k * 2)) (hp1 !!! (k * 2 + 1))).
    all: apply IH; rewrite ?swap_length; try lia.
    all: apply swap_agree; (done || lia).
Qed.

Lemma agree_elements s1 s2 :
  wf s1 → wf s2 → agree_on_stored s1 s2 → elements s1 = elements s2.
Proof.
  intros [Hl1 Hn1] [Hl2 Hn2] [Hn Ha]. unfold elements. rewrite <- Hn.
  apply (list_eq_same_length _ _ (realSize s1));
    [rewrite length_take, length_drop; lia .. |].
  intros i x y Hi Hx Hy.
  rewrite lookup_take_lt, lookup_drop in Hx, Hy by lia.
  apply list_lookup_total_correct in Hx, Hy. subst.
  apply Ha. lia.
Qed.

(** One call on two states of equal capacity that agree on the stored
    slots: same return value, same output, and the states still agree. *)
Lemma step_agree v o s1 s2 :
  wf s1 → wf s2 → heapSize s1 = heapSize s2 → agree_on_stored s1 s2 →
  (step v o s1).2 = (step v o s2).2
  ∧ heapSize (step v o s1).1 = heapSize (step v o s2).1
  ∧ agree_on_stored (step v o s1).1 (step v o s2).1.
Proof.
  intros Hwf1 Hwf2 Hc Hag.
  pose proof Hwf1 as [Hl1 Hn1]. pose proof Hwf2 as [Hl2 Hn2].
  pose proof Hag as [Hn Ha].
  destruct o.
  - rewrite !step_Add. destruct (decide (realSize s1 < heapSize s1)).
    + rewrite (add_room v _ s1), (add_room v _ s2) by lia. simpl.
      split_and!; [done | done |]. split; simpl; [lia|]. rewrite <- Hn.
      apply bubble_up_agree; rewrite ?length_insert; try lia.
      intros i Hi. rewrite !list_lookup_total_insert by lia.
      repeat case_decide; try lia; try done.
      apply Ha. lia.
    + rewrite (add_full v _ s1), (add_full v _ s2) by lia. done.
  - rewrite !step_Pop. destruct (decide (1 ≤ realSize s1)).
    + rewrite (pop_nonempty v s1), (pop_nonempty v s2) by lia. simpl.
      rewrite <- Hn, <- (Ha 1), <- (Ha (realSize s1)) by lia.
      split_and!; [done | done |]. split; simpl; [done|].
      apply bubble_down_agree; rewrite ?length_insert; try lia.
      intros j Hj. rewrite !list_lookup_total_insert by lia.
      repeat case_decide; try lia; try done.
      apply Ha. lia.
    + rewrite (pop_empty_heap v s1), (pop_empty_heap v s2) by lia. done.
  - rewrite !step_Peek. simpl. split_and!; try done.
    unfold peek. rewrite <- Hn.
    destruct (realSize s1 <? 1) eqn:E; [done|].
    apply Nat.ltb_ge in E. by rewrite (Ha 1) by lia.
  - simpl. split_and!; try done. unfold size. by rewrite Hn.
  - simpl. split_and!; try done. do 2 f_equal.
    destruct (decide (realSize s1 = 0)).
    + rewrite !toString_empty by lia. done.
    + rewrite !toString_nonempty by (done || lia).
      by rewrite (agree_elements s1 s2).
Qed.

Lemma run_agree v ops : ∀ s1 s2,
  wf s1 → wf s2 → heapSize s1 = heapSize s2 → agree_on_stored s1 s2 →
  (run v ops s1).2 = (run v ops s2).2
  ∧ heapSize (exec v ops s1) = heapSize (exec v ops s2)
  ∧ agree_on_stored (exec v ops s1) (exec v ops s2).
Proof.
  induction ops as [|o ops IH]; intros s1 s2 Hwf1 Hwf2 Hc Hag; [done|].
  destruct (step_agree v o s1 s2) as (Hr & Hc' & Hag'); try done.
  destruct (IH (step v o s1).1 (step v o s2).1) as (Hr' & Hc'' & Hag'');
    try done; try by apply step_wf.
  rewrite !run_cons, !exec_cons. simpl. by rewrite Hr, Hr'.
Qed.

(** * The properties *)

(** ** Invariants *)

(** C1.  After any sequence of calls on a freshly constructed heap, the
    heap property holds: for every [i] in [2 .. realSize], the element at
    [i / 2] is in [order] with the element at [i] ([>=] for the max-heap,
    [<=] for the min-heap). *)
Theorem heap_property_holds (v : variant) (capacity : nat) (ops : list op) (i : nat) :
  2 ≤ i ≤ realSize (exec v ops (new capacity)) →
  order v (heap (exec v ops (new capacity)) !!! (i / 2))
          (heap (exec v ops (new capacity)) !!! i).
Proof.
  revert i. change (heap_property v (exec v ops (new capacity))).
  apply exec_heap_property; [apply new_wf | apply new_heap_property].
Qed.

Lemma heap_property_holds_witness :
  2 ≤ 4 ≤ realSize (exec MaxHeap [Add 1; Add 4; Add 3; Add 6; Add 7; Pop] (new 10))
  ∧ order MaxHeap
      (heap (exec MaxHeap [Add 1; Add 4; Add 3; Add 6; Add 7; Pop] (new 10)) !!! (4 / 2))
      (heap (exec MaxHeap [Add 1; Add 4; Add 3; Add 6; Add 7; Pop] (new 10)) !!! 4).
Proof.
  split; [vm_compute; lia|].
  apply (heap_property_holds MaxHeap 10 [Add 1; Add 4; Add 3; Add 6; Add 7; Pop] 4).
  vm_compute; lia.
Defined.

(** ** Extraction order *)

(** C2.  Inserting [n] elements into a fresh heap of capacity at least [n]
    and then calling [pop] [n] times returns the inserted elements, each
    as often as it was inserted, sorted by [order]: non-increasing for the
    max-heap, non-decreasing for the min-heap. *)
Theorem extraction_order (v : variant) (capacity : nat) (xs : list Z) :
  length xs ≤ capacity →
  ∃ ys, returns v ((Add <$> xs) ++ replicate (length xs) Pop) (new capacity)
        = replicate (length xs) VVoid ++ (VInt <$> ys)
        ∧ StronglySorted (order v) ys
        ∧ ys ≡ₚ xs.
Proof.
  intros Hcap.
  destruct (adds_elements v xs (new capacity)) as (Hp & Hn & Hr);
    [apply new_wf | simpl; lia |].
  destruct (pops_sorted v (length xs) (exec v (Add <$> xs) (new capacity)))
    as (ys & Hr' & Hs & Hp').
  { apply exec_wf, new_wf. }
  { apply exec_heap_property; [apply new_wf | apply new_heap_property]. }
  { rewrite Hn. simpl. lia. }
  exists ys. split_and!; [|done|].
  - by rewrite returns_app, Hr, Hr'.
  - rewrite Hp', Hp. unfold elements at 1. simpl. by rewrite app_nil_r.
Qed.

Lemma extraction_order_witness :
  length [1; 4; 3; 6; 7]%Z ≤ 10
  ∧ ∃ ys, returns MaxHeap ((Add <$> [1; 4; 3; 6; 7]%Z)
                            ++ replicate (length [1; 4; 3; 6; 7]%Z) Pop) (new 10)
          = replicate (length [1; 4; 3; 6; 7]%Z) VVoid ++ (VInt <$> ys)
          ∧ StronglySorted (order MaxHeap) ys
          ∧ ys ≡ₚ [1; 4; 3; 6; 7]%Z.
Proof.
  split; [simpl; lia|].
  apply (extraction_order MaxHeap 10 [1; 4; 3; 6; 7]%Z). simpl; lia.
Defined.

(** ** The capacity guard *)

(** C3, as the code has it.  On a heap with [realSize = heapSize], [add]
    writes ["Added too many Elements!"] to [cout], hands nothing back to
    its caller ([void]) and leaves the object as it was: same [size],
    same [peek], same stored sequence, same [toString]. *)
Theorem add_full_unchanged (v : variant) (element : Z) (s : state) :
  realSize s = heapSize s →
  step v (Add element) s = (s, (VVoid, ["Added too many Elements!"%string]))
  ∧ size (exec v [Add element] s) = size s
  ∧ peek (exec v [Add element] s) = peek s
  ∧ elements (exec v [Add element] s) = elements s
  ∧ toString (exec v [Add element] s) = toString s.
Proof.
  intros Hfull.
  assert (Hs : step v (Add element) s
               = (s, (VVoid, ["Added too many Elements!"%string]))).
  { rewrite step_Add, add_full by lia. done. }
  rewrite exec_cons, exec_nil, Hs. done.
Qed.

Lemma add_full_unchanged_witness :
  realSize (exec MaxHeap [Add 5] (new 1)) = heapSize (exec MaxHeap [Add 5] (new 1))
  ∧ step MaxHeap (Add 7) (exec MaxHeap [Add 5] (new 1))
    = (exec MaxHeap [Add 5] (new 1), (VVoid, ["Added too many Elements!"%string]))
  ∧ size (exec MaxHeap [Add 7] (exec MaxHeap [Add 5] (new 1)))
    = size (exec MaxHeap [Add 5] (new 1)).
Proof.
  split; [reflexivity|].
  destruct (add_full_unchanged MaxHeap 7 (exec MaxHeap [Add 5] (new 1)))
    as (H1 & H2 & _); [reflexivity|].
  split; [exact H1 | exact H2].
Defined.

(** C3, as stated, fails: [add] is [void], so a refused call hands its
    caller the same (empty) value as a successful one.  On the full
    max-heap of capacity 1 holding 5, the refusal of [add(7)] is not
    reported. *)
Lemma add_full_not_reported :
  realSize (exec MaxHeap [Add 5] (new 1)) = heapSize (exec MaxHeap [Add 5] (new 1))
  ∧ ¬ reports_failure MaxHeap (Add 7) (exec MaxHeap [Add 5] (new 1)).
Proof.
  split; [reflexivity|].
  intros H. apply (H (Add 7) (new 1)); [done | apply new_wf | done | done].
Qed.

(** ** The emptiness guard *)

(** C4, as the code has it.  On a heap with [realSize = 0], [peek] returns
    [INT_MAX] and [pop] returns [INT_MIN] (max-heap) or [INT_MAX]
    (min-heap); each writes ["Don't have any element"] to [cout] and
    leaves the object as it was. *)
Theorem empty_heap_sentinels (v : variant) (s : state) :
  realSize s = 0 →
  step v Peek s = (s, (VInt INT_MAX, ["Don't have any element"%string]))
  ∧ step v Pop s = (s, (VInt (pop_empty v), ["Don't have any element"%string])).
Proof.
  intros Hempty. split.
  - rewrite step_Peek. unfold peek. by rewrite Hempty.
  - rewrite step_Pop, pop_empty_heap by done. done.
Qed.

Lemma empty_heap_sentinels_witness :
  realSize (new 3) = 0
  ∧ step MinHeap Peek (new 3)
    = (new 3, (VInt INT_MAX, ["Don't have any element"%string]))
  ∧ step MinHeap Pop (new 3)
    = (new 3, (VInt (pop_empty MinHeap), ["Don't have any element"%string])).
Proof.
  split; [reflexivity|].
  apply (empty_heap_sentinels MinHeap (new 3)). reflexivity.
Defined.

(** C4, as stated, fails: on the empty max-heap of capacity 1, [peek]
    hands back the value it hands back when [INT_MAX] is stored, and [pop]
    the value it hands back when [INT_MIN] is stored.  Neither failure is
    reported. *)
Lemma empty_heap_not_reported :
  realSize (new 1) = 0
  ∧ ¬ reports_failure MaxHeap Peek (new 1)
  ∧ ¬ reports_failure MaxHeap Pop (new 1).
Proof.
  split_and!; [reflexivity | |].
  - intros H.
    apply (H Peek (exec MaxHeap [Add INT_MAX] (new 1)));
      [done | apply exec_wf, new_wf | done | done].
  - intros H.
    apply (H Pop (exec MaxHeap [Add INT_MIN] (new 1)));
      [done | apply exec_wf, new_wf | done | done].
Qed.

(** C5.  On a heap with [realSize = 0], [peek] returns [INT_MAX] in both
    classes, [pop] returns [INT_MIN] in the max-heap and [INT_MAX] in the
    min-heap; and a heap that stores that very value hands the same value
    back, so the caller cannot tell the two apart. *)
Theorem empty_returns_collide (v : variant) (s : state) :
  realSize s = 0 →
  (peek s).1 = INT_MAX
  ∧ (pop MaxHeap s).1.1 = INT_MIN
  ∧ (pop MinHeap s).1.1 = INT_MAX
  ∧ realSize (exec v [Add INT_MAX] (new 1)) = 1
  ∧ (step v Peek (exec v [Add INT_MAX] (new 1))).2.1 = (step v Peek s).2.1
  ∧ realSize (exec v [Add (pop_empty v)] (new 1)) = 1
  ∧ (step v Pop (exec v [Add (pop_empty v)] (new 1))).2.1 = (step v Pop s).2.1.
Proof.
  intros Hempty.
  assert (Hpk : peek s = (INT_MAX, ["Don't have any element"%string])).
  { unfold peek. by rewrite Hempty. }
  split_and!.
  - by rewrite Hpk.
  - by rewrite pop_empty_heap.
  - by rewrite pop_empty_heap.
  - by destruct v.
  - rewrite (step_Peek v s), Hpk. by destruct v.
  - by destruct v.
  - rewrite (step_Pop v s), pop_empty_heap by done. by destruct v.
Qed.

Lemma empty_returns_collide_witness :
  realSize (new 2) = 0
  ∧ (peek (new 2)).1 = INT_MAX
  ∧ (pop MaxHeap (new 2)).1.1 = INT_MIN
  ∧ (pop MinHeap (new 2)).1.1 = INT_MAX
  ∧ realSize (exec MaxHeap [Add INT_MAX] (new 1)) = 1
  ∧ (step MaxHeap Peek (exec MaxHeap [Add INT_MAX] (new 1))).2.1
    = (step MaxHeap Peek (new 2)).2.1
  ∧ realSize (exec MaxHeap [Add (pop_empty MaxHeap)] (new 1)) = 1
  ∧ (step MaxHeap Pop (exec MaxHeap [Add (pop_empty MaxHeap)] (new 1))).2.1
    = (step MaxHeap Pop (new 2)).2.1.
Proof.
  split; [reflexivity|].
  apply (empty_returns_collide MaxHeap (new 2)). reflexivity.
Defined.

(** ** Size accounting *)

(** C6.  At every point of a sequence of calls on a fresh heap, [size]
    is the number of successful [add]s so far minus the number of
    successful [pop]s so far: this holds of the state reached, and of the
    value a [size] call returns wherever it stands in the sequence.
    Refused calls are not counted and ([step_refused]) change nothing. *)
Theorem size_accounting (v : variant) (capacity : nat) (pre post : list op) :
  size (exec v pre (new capacity))
  = (Z.of_nat (inserted v pre (new capacity))
     - Z.of_nat (extracted v pre (new capacity)))%Z
  ∧ returns v (pre ++ Size :: post) (new capacity) !! length pre
    = Some (VInt (Z.of_nat (inserted v pre (new capacity))
                  - Z.of_nat (extracted v pre (new capacity)))%Z).
Proof.
  assert (Hsz : size (exec v pre (new capacity))
                = (Z.of_nat (inserted v pre (new capacity))
                   - Z.of_nat (extracted v pre (new capacity)))%Z).
  { pose proof (exec_realSize v pre (new capacity)) as H.
    unfold size. simpl in H. lia. }
  split; [done|].
  rewrite returns_app, lookup_app_r by (rewrite returns_length; lia).
  rewrite returns_length, Nat.sub_diag, returns_cons. simpl.
  by rewrite Hsz.
Qed.

(** ** The example run *)

(** C7.  On a max-heap of capacity 10, after inserting 1, 4, 3, 6, 7:
    [size] is 5 and [peek] is 7; [pop] returns 7, and then [size] is 4 and
    [peek] is 6; five [pop]s in a row return 7, 6, 4, 3, 1. *)
Theorem max_heap_example :
  returns MaxHeap
    [Add 1; Add 4; Add 3; Add 6; Add 7; Size; Peek; Pop; Size; Peek] (new 10)
  = [VVoid; VVoid; VVoid; VVoid; VVoid; VInt 5; VInt 7; VInt 7; VInt 4; VInt 6]
  ∧ returns MaxHeap
      [Add 1; Add 4; Add 3; Add 6; Add 7; Pop; Pop; Pop; Pop; Pop] (new 10)
    = [VVoid; VVoid; VVoid; VVoid; VVoid;
       VInt 7; VInt 6; VInt 4; VInt 3; VInt 1].
Proof. split; vm_compute; reflexivity. Qed.

(** ** [peek] *)

(** C8.  Two [peek]s in a row return the same value, and leave [size],
    and indeed the whole object, as it was. *)
Theorem peek_twice (v : variant) (s : state) :
  returns v [Peek; Peek] s = [VInt (peek s).1; VInt (peek s).1]
  ∧ size (exec v [Peek; Peek] s) = size s
  ∧ exec v [Peek; Peek] s = s.
Proof.
  rewrite !returns_cons, !exec_cons, !step_Peek. done.
Qed.

(** ** [toString] *)

(** C9.  On a heap with [realSize > 0], [toString] is the bracketed,
    comma-separated text of exactly the [realSize] stored elements in
    array order, slot 1 first; this is not sorted order (after inserting
    1, 4, 3, 6, 7 into a max-heap it reads ["[7,6,3,1,4]"]).  On a heap
    with [realSize = 0] it is ["No element!"], which differs from the text
    of every heap holding one element. *)
Theorem toString_level_order (s : state) :
  wf s →
  (realSize s ≠ 0 →
     toString s = bracketed (elements s)
     ∧ length (elements s) = realSize s
     ∧ ∀ i, 1 ≤ i ≤ realSize s → elements s !! (i - 1) = Some (heap s !!! i))
  ∧ (realSize s = 0 →
     toString s = "No element!"%string
     ∧ ∀ s1, realSize s1 = 1 → toString s1 ≠ toString s)
  ∧ toString (exec MaxHeap [Add 1; Add 4; Add 3; Add 6; Add 7] (new 10))
    = "[7,6,3,1,4]"%string.
Proof.
  intros Hwf. pose proof Hwf as [Hl Hn]. split_and!.
  - intros Hne. split_and!.
    + by apply toString_nonempty.
    + unfold elements. rewrite length_take, length_drop. lia.
    + intros i Hi. unfold elements.
      rewrite lookup_take_lt, lookup_drop by lia.
      replace (1 + (i - 1)) with i by lia.
      apply list_lookup_lookup_total_lt. lia.
  - intros Hempty. split; [by apply toString_empty|].
    intros s1 Hone. rewrite (toString_single s1), (toString_empty s) by done.
    discriminate.
  - vm_compute. reflexivity.
Qed.

Lemma toString_level_order_witness :
  wf (exec MinHeap [Add 4; Add (-2); Add 9] (new 4))
  ∧ toString (exec MinHeap [Add 4; Add (-2); Add 9] (new 4)) = "[-2,4,9]"%string
  ∧ wf (new 4)
  ∧ toString (new 4) = "No element!"%string
  ∧ toString (exec MinHeap [Add 4] (new 4)) ≠ toString (new 4).
Proof.
  assert (Hwf1 : wf (exec MinHeap [Add 4; Add (-2); Add 9] (new 4))).
  { split; vm_compute; lia. }
  assert (Hwf0 : wf (new 4)).
  { split; vm_compute; lia. }
  destruct (toString_level_order _ Hwf1) as (H1 & _ & _).
  destruct (toString_level_order _ Hwf0) as (_ & H0 & _).
  destruct H1 as (Htxt & _); [vm_compute; lia|].
  destruct H0 as (Hno & Hdiff); [reflexivity|].
  split_and!; [exact Hwf1 | | exact Hwf0 | exact Hno |].
  - rewrite Htxt. vm_compute. reflexivity.
  - apply Hdiff. reflexivity.
Defined.

(** ** Stale slots *)

(** C10, as the code has it.  Slot 0 and the slots beyond [realSize] are
    never read: two states of the same capacity that agree on [realSize]
    and on the slots [1 .. realSize] give the same [peek], [pop], [size]
    and [toString], and under any sequence of calls return the same
    values, print the same lines and keep agreeing. *)
Theorem stale_slots_unobservable (v : variant) (s1 s2 : state) (ops : list op) :
  wf s1 → wf s2 → heapSize s1 = heapSize s2 → agree_on_stored s1 s2 →
  (peek s1 = peek s2
   ∧ (pop v s1).1.1 = (pop v s2).1.1
   ∧ size s1 = size s2
   ∧ toString s1 = toString s2)
  ∧ (run v ops s1).2 = (run v ops s2).2
  ∧ heapSize (exec v ops s1) = heapSize (exec v ops s2)
  ∧ agree_on_stored (exec v ops s1) (exec v ops s2).
Proof.
  intros Hwf1 Hwf2 Hc Hag. split; [|by apply run_agree].
  destruct (step_agree v Peek s1 s2) as (Hpk & _); try done.
  destruct (step_agree v Pop s1 s2) as (Hpp & _); try done.
  destruct (step_agree v Size s1 s2) as (Hsz & _); try done.
  destruct (step_agree v ToString s1 s2) as (Hts & _); try done.
  rewrite !step_Peek in Hpk. rewrite !step_Pop in Hpp. simpl in *.
  split_and!; [| congruence | congruence | congruence].
  destruct (peek s1), (peek s2). simpl in *. congruence.
Qed.

Lemma stale_slots_unobservable_witness :
  wf (exec MaxHeap [Add 1; Add 2; Pop] (new 3))
  ∧ wf (exec MaxHeap [Add 1] (new 3))
  ∧ heap (exec MaxHeap [Add 1; Add 2; Pop] (new 3)) !!! 2
    ≠ heap (exec MaxHeap [Add 1] (new 3)) !!! 2
  ∧ (run MaxHeap [Add 9; ToString; Pop; Pop; Peek; Pop; Size]
       (exec MaxHeap [Add 1; Add 2; Pop] (new 3))).2
    = (run MaxHeap [Add 9; ToString; Pop; Pop; Peek; Pop; Size]
         (exec MaxHeap [Add 1] (new 3))).2.
Proof.
  assert (Hwf1 : wf (exec MaxHeap [Add 1; Add 2; Pop] (new 3))).
  { split; vm_compute; lia. }
  assert (Hwf2 : wf (exec MaxHeap [Add 1] (new 3))).
  { split; vm_compute; lia. }
  split_and!; [exact Hwf1 | exact Hwf2 | vm_compute; discriminate |].
  apply (stale_slots_unobservable MaxHeap _ _
           [Add 9; ToString; Pop; Pop; Peek; Pop; Size] Hwf1 Hwf2).
  - reflexivity.
  - split; [reflexivity|].
    intros i Hi. assert (i = 1) as -> by (vm_compute in Hi; lia).
    reflexivity.
Defined.

(** C10, as stated, fails: the capacity is part of the state too.  The
    fresh heaps of capacity 0 and 1 agree on [realSize] and on the slots
    [1 .. realSize], yet [add(5)] is refused by the first and accepted by
    the second, and [size] then returns 0 and 1. *)
Lemma stale_slots_capacity_counterexample :
  agree_on_stored (new 0) (new 1)
  ∧ returns MaxHeap [Add 5; Size] (new 0) = [VVoid; VInt 0]
  ∧ returns MaxHeap [Add 5; Size] (new 1) = [VVoid; VInt 1]
  ∧ returns MaxHeap [Add 5; Size] (new 0) ≠ returns MaxHeap [Add 5; Size] (new 1).
Proof.
  split_and!; [| reflexivity | reflexivity | vm_compute; discriminate].
  split; [reflexivity|]. simpl. intros i Hi. lia.
Qed.

(** * Further properties *)

(** ** The capacity is kept *)

Lemma step_heapSize v o s : heapSize (step v o s).1 = heapSize s.
Proof.
  destruct o; try done.
  - rewrite step_Add. unfold add. by destruct (heapSize s <? realSize s + 1).
  - rewrite step_Pop. unfold pop. by destruct (realSize s <? 1).
  - by rewrite step_Peek.
Qed.

Lemma exec_heapSize v ops : ∀ s, heapSize (exec v ops s) = heapSize s.
Proof.
  induction ops as [|o ops IH]; intros s; [done|].
  by rewrite exec_cons, IH, step_heapSize.
Qed.

(** X1.  Whatever is called on a heap constructed with [capacity], the
    capacity stays what it was, the vector keeps its [capacity + 1] slots
    and [size] stays within [0 .. capacity]. *)
Theorem capacity_kept (v : variant) (capacity : nat) (ops : list op) :
  heapSize (exec v ops (new capacity)) = capacity
  ∧ length (heap (exec v ops (new capacity))) = capacity + 1
  ∧ (0 ≤ size (exec v ops (new capacity)) ≤ Z.of_nat capacity)%Z.
Proof.
  pose proof (exec_wf v ops (new capacity) (new_wf capacity)) as [Hl Hn].
  rewrite exec_heapSize in *. simpl in *. unfold size. split_and!; (done || lia).
Qed.

(** ** Every access is in range, every loop is short *)

Lemma write_Some hp i x : i < length hp → write hp i x = Some (<[i := x]> hp).
Proof.
  intros H. unfold write.
  destruct (i <? length hp) eqn:E; [done | apply Nat.ltb_ge in E; lia].
Qed.

Lemma swap_checked_Some hp i j :
  i < length hp → j < length hp → swap_checked hp i j = Some (swap hp i j).
Proof.
  intros Hi Hj. unfold swap_checked, swap.
  rewrite (list_lookup_lookup_total_lt hp i), (list_lookup_lookup_total_lt hp j) by done.
  simpl. rewrite write_Some by done. simpl.
  rewrite write_Some by (by rewrite length_insert). done.
Qed.

(** From index [k], the loop of [add] takes at most [turns] turns when
    [k < 2 ^ turns], and stays within the vector. *)
Lemma bubble_up_checked_Some v : ∀ turns k hp,
  1 ≤ k < length hp → k < 2 ^ turns →
  bubble_up_checked turns v hp k = Some (bubble_up v hp k).
Proof.
  induction turns as [|turns IH]; intros k hp Hk Hpow; [simpl in Hpow; lia|].
  cbn [bubble_up_checked]. rewrite bubble_up_eq.
  destruct (1 <? k) eqn:E; cbn [andb]; [|done].
  apply Nat.ltb_lt in E.
  rewrite (list_lookup_lookup_total_lt hp k),
    (list_lookup_lookup_total_lt hp (k / 2)) by lia.
  cbn [mbind option_bind]. destruct (beats v (hp !!! k) (hp !!! (k / 2))); [|done].
  rewrite swap_checked_Some by lia. cbn [mbind option_bind].
  apply IH; [rewrite swap_length; lia|].
  rewrite Nat.pow_succ_r' in Hpow. lia.
Qed.

(** From index [k], the loop of [pop] takes at most [turns] turns when
    [n < k * 2 ^ turns], and stays within the vector. *)
Lemma bubble_down_checked_Some v n : ∀ turns fuel k hp,
  1 ≤ k → n < length hp → n < k * 2 ^ turns → 1 ≤ turns ≤ fuel →
  bubble_down_checked turns v n hp k = Some (bubble_down fuel v n hp k).
Proof.
  induction turns as [|turns IH]; intros fuel k hp Hk Hlen Hpow Hf; [lia|].
  destruct fuel as [|fuel]; [lia|].
  cbn [bubble_down_checked]. rewrite bubble_down_S.
  destruct (k <=? n / 2) eqn:E; [apply Nat.leb_le in E | done].
  rewrite Nat.pow_succ_r' in Hpow.
  assert (1 ≤ turns).
  { destruct turns; [simpl in Hpow; lia | lia]. }
  rewrite (list_lookup_lookup_total_lt hp k),
    (list_lookup_lookup_total_lt hp (k * 2)) by lia.
  destruct (n <? k * 2 + 1) eqn:E1;
    [apply Nat.ltb_lt in E1 | apply Nat.ltb_ge in E1]; cbn [mbind option_bind].
  - destruct (loses v (hp !!! k) (hp !!! (k * 2))); [|done].
    rewrite swap_checked_Some by lia. cbn [mbind option_bind].
    apply IH; rewrite ?swap_length; lia.
  - rewrite (list_lookup_lookup_total_lt hp (k * 2 + 1)) by lia. cbn [mbind option_bind].
    destruct (loses v (hp !!! k) (hp !!! (k * 2))
              || loses v (hp !!! k) (hp !!! (k * 2 + 1))); [|done].
    destruct (beats v (hp !!! (k * 2)) (hp !!! (k * 2 + 1))).
    all: rewrite swap_checked_Some by lia; cbn [mbind option_bind].
    all: apply IH; rewrite ?swap_length; lia.
Qed.

Lemma log2_turns n : n < 2 ^ (Nat.log2 n + 1) ∧ (1 ≤ n → Nat.log2 n + 1 ≤ n).
Proof.
  destruct (decide (n = 0)) as [->|Hn]; [simpl; lia|].
  pose proof (Nat.log2_spec n ltac:(lia)) as [Hlo Hhi].
  pose proof (Nat.log2_lt_lin n ltac:(lia)).
  rewrite Nat.add_1_r. split; lia.
Qed.










(** X3.  On a vector with slots [0 .. n], the loop of [add] started at the
    last slot [n] and the loop of [pop] started at the root each end
    within [log2 n + 1] turns, the last of which only evaluates the loop
    condition: at most [log2 n] swaps. *)
Theorem loops_logarithmic (v : variant) (n : nat) (hp : list Z) :
  1 ≤ n < length hp →
  bubble_up_checked (Nat.log2 n + 1) v hp n = Some (bubble_up v hp n)
  ∧ bubble_down_checked (Nat.log2 n + 1) v n hp 1 = Some (bubble_down n v n hp 1).
Proof.
  intros Hn. pose proof (log2_turns n) as [Hpow Hlin]. split.
  - by apply bubble_up_checked_Some.
  - apply bubble_down_checked_Some; lia.
Qed.

Lemma loops_logarithmic_witness :
  1 ≤ 7 < length [0; 1; 9; 8; 7; 6; 5; 4]%Z
  ∧ bubble_up_checked (Nat.log2 7 + 1) MaxHeap [0; 1; 9; 8; 7; 6; 5; 4]%Z 7
    = Some (bubble_up MaxHeap [0; 1; 9; 8; 7; 6; 5; 4]%Z 7)
  ∧ bubble_down_checked (Nat.log2 7 + 1) MaxHeap 7 [0; 1; 9; 8; 7; 6; 5; 4]%Z 1
    = Some (bubble_down 7 MaxHeap 7 [0; 1; 9; 8; 7; 6; 5; 4]%Z 1).
Proof.
  split; [simpl; lia|].
  apply (loops_logarithmic MaxHeap 7 [0; 1; 9; 8; 7; 6; 5; 4]%Z). simpl; lia.
Defined.

(** ** What [peek], [pop] and [add] do to the stored elements *)

Lemma order_antisym v a b : order v a b → order v b a → a = b.
Proof. destruct v; simpl; lia. Qed.

Lemma beats_not_order v a b : beats v a b = true → ¬ order v b a.
Proof. destruct v; simpl; lia. Qed.

Lemma peek_nonempty s : 1 ≤ realSize s → peek s = (heap s !!! 1, []).
Proof.
  intros H. unfold peek.
  destruct (realSize s <? 1) eqn:E; [apply Nat.ltb_lt in E; lia | done].
Qed.

Lemma root_in_elements s :
  wf s → 1 ≤ realSize s → heap s !!! 1 ∈ elements s.
Proof.
  intros [Hl Hn] Hne. apply list_elem_of_lookup. exists 0.
  unfold elements. rewrite lookup_take_lt, lookup_drop by lia.
  apply list_lookup_lookup_total_lt. lia.
Qed.

(** X4.  On a heap that is not empty, whatever calls built it, [peek]
    returns one of the stored elements, and one that is in [order] with
    every stored element: a maximum in the max-heap, a minimum in the
    min-heap. *)
Theorem peek_is_extreme (v : variant) (capacity : nat) (ops : list op) :
  1 ≤ realSize (exec v ops (new capacity)) →
  (peek (exec v ops (new capacity))).1 ∈ elements (exec v ops (new capacity))
  ∧ Forall (order v (peek (exec v ops (new capacity))).1)
           (elements (exec v ops (new capacity))).
Proof.
  intros Hne.
  pose proof (exec_wf v ops _ (new_wf capacity)) as Hwf.
  pose proof (exec_heap_property v ops _ (new_wf capacity)
                (new_heap_property v capacity)) as Hh.
  rewrite peek_nonempty by done. simpl. split.
  - by apply root_in_elements.
  - by apply root_order_elements.
Qed.

Lemma peek_is_extreme_witness :
  1 ≤ realSize (exec MinHeap [Add 4; Add (-2); Add 9; Pop; Add 4] (new 5))
  ∧ (peek (exec MinHeap [Add 4; Add (-2); Add 9; Pop; Add 4] (new 5))).1
    ∈ elements (exec MinHeap [Add 4; Add (-2); Add 9; Pop; Add 4] (new 5))
  ∧ Forall (order MinHeap
              (peek (exec MinHeap [Add 4; Add (-2); Add 9; Pop; Add 4] (new 5))).1)
           (elements (exec MinHeap [Add 4; Add (-2); Add 9; Pop; Add 4] (new 5))).
Proof.
  split; [vm_compute; lia|].
  apply (peek_is_extreme MinHeap 5 [Add 4; Add (-2); Add 9; Pop; Add 4]).
  vm_compute; lia.
Defined.

(** X5.  On a heap that is not empty, [pop] returns the value [peek]
    shows, prints nothing, lowers [size] by one and removes exactly one
    occurrence of that value: every other stored element, with its
    multiplicity, is still stored. *)
Theorem pop_removes_peek (v : variant) (s : state) :
  wf s → 1 ≤ realSize s →
  (pop v s).1.1 = (peek s).1
  ∧ (pop v s).2 = []
  ∧ size (pop v s).1.2 = (size s - 1)%Z
  ∧ elements s ≡ₚ (pop v s).1.1 :: elements (pop v s).1.2.
Proof.
  intros Hwf Hne. split_and!.
  - by rewrite pop_nonempty, peek_nonempty.
  - by rewrite pop_nonempty.
  - rewrite pop_nonempty by done. unfold size. simpl. lia.
  - by apply pop_elements.
Qed.

Lemma pop_removes_peek_witness :
  wf (exec MaxHeap [Add 3; Add 8; Add 3] (new 4))
  ∧ 1 ≤ realSize (exec MaxHeap [Add 3; Add 8; Add 3] (new 4))
  ∧ (pop MaxHeap (exec MaxHeap [Add 3; Add 8; Add 3] (new 4))).1.1
    = (peek (exec MaxHeap [Add 3; Add 8; Add 3] (new 4))).1
  ∧ elements (exec MaxHeap [Add 3; Add 8; Add 3] (new 4))
    ≡ₚ (pop MaxHeap (exec MaxHeap [Add 3; Add 8; Add 3] (new 4))).1.1
       :: elements (pop MaxHeap (exec MaxHeap [Add 3; Add 8; Add 3] (new 4))).1.2.
Proof.
  assert (Hwf : wf (exec MaxHeap [Add 3; Add 8; Add 3] (new 4))).
  { split; vm_compute; lia. }
  assert (Hne : 1 ≤ realSize (exec MaxHeap [Add 3; Add 8; Add 3] (new 4))).
  { vm_compute; lia. }
  destruct (pop_removes_peek MaxHeap _ Hwf Hne) as (H1 & _ & _ & H2).
  split_and!; [exact Hwf | exact Hne | exact H1 | exact H2].
Defined.

(** X6.  On a heap with room, [add] prints nothing, raises [size] by one
    and stores exactly the given element besides those already stored:
    nothing is lost or duplicated by the swaps. *)
Theorem add_inserts (v : variant) (element : Z) (s : state) :
  wf s → realSize s < heapSize s →
  (add v element s).2 = []
  ∧ size (add v element s).1 = (size s + 1)%Z
  ∧ elements (add v element s).1 ≡ₚ element :: elements s.
Proof.
  intros Hwf Hroom. split_and!.
  - by rewrite add_room.
  - rewrite add_room by done. unfold size. simpl. lia.
  - by apply add_elements.
Qed.

Lemma add_inserts_witness :
  wf (exec MinHeap [Add 5; Add 1] (new 3))
  ∧ realSize (exec MinHeap [Add 5; Add 1] (new 3))
    < heapSize (exec MinHeap [Add 5; Add 1] (new 3))
  ∧ size (add MinHeap 1 (exec MinHeap [Add 5; Add 1] (new 3))).1
    = (size (exec MinHeap [Add 5; Add 1] (new 3)) + 1)%Z
  ∧ elements (add MinHeap 1 (exec MinHeap [Add 5; Add 1] (new 3))).1
    ≡ₚ 1%Z :: elements (exec MinHeap [Add 5; Add 1] (new 3)).
Proof.
  assert (Hwf : wf (exec MinHeap [Add 5; Add 1] (new 3))).
  { split; vm_compute; lia. }
  assert (Hroom : realSize (exec MinHeap [Add 5; Add 1] (new 3))
                  < heapSize (exec MinHeap [Add 5; Add 1] (new 3))).
  { vm_compute; lia. }
  destruct (add_inserts MinHeap 1 _ Hwf Hroom) as (_ & H1 & H2).
  split_and!; [exact Hwf | exact Hroom | exact H1 | exact H2].
Defined.

Lemma add_peek_better v element s :
  wf s → heap_property v s → realSize s < heapSize s →
  (peek (add v element s).1).1
  = if realSize s =? 0 then element else better v element (peek s).1.
Proof.
  intros Hwf Hh Hroom.
  set (s' := (add v element s).1).
  assert (Hwf' : wf s') by by apply add_wf.
  assert (Hh' : heap_property v s') by by apply add_heap_property.
  assert (Hn' : realSize s' = realSize s + 1).
  { unfold s'. rewrite add_room by lia. done. }
  assert (Hel : elements s' ≡ₚ element :: elements s).
  { apply add_elements; [done | lia]. }
  rewrite peek_nonempty by lia. simpl.
  pose proof (root_in_elements s' Hwf' ltac:(lia)) as Hin.
  pose proof (root_order_elements v s' Hwf' Hh') as Hall.
  rewrite Hel in Hin, Hall.
  apply Forall_cons in Hall as [Hx Hall].
  destruct (realSize s =? 0) eqn:E.
  { apply Nat.eqb_eq in E. unfold elements in Hin at 1. rewrite E in Hin.
    simpl in Hin. by apply list_elem_of_singleton in Hin. }
  apply Nat.eqb_neq in E.
  rewrite peek_nonempty by lia. simpl.
  pose proof (root_in_elements s Hwf ltac:(lia)) as Hr.
  pose proof (root_order_elements v s Hwf Hh) as Hrall.
  rewrite Forall_forall in Hall, Hrall.
  unfold better. apply elem_of_cons in Hin as [Heq|Hin].
  - destruct (beats v element (heap s !!! 1)) eqn:Hb; [done|].
    apply not_beats_order in Hb. rewrite Heq in *.
    apply (order_antisym v); [by apply Hall | done].
  - assert (heap s' !!! 1 = heap s !!! 1) as Heq.
    { apply (order_antisym v); [by apply Hall | by apply Hrall]. }
    destruct (beats v element (heap s !!! 1)) eqn:Hb; [|done].
    apply beats_not_order in Hb. rewrite Heq in Hx. done.
Qed.

Lemma reachable_wf v capacity ops : wf (exec v ops (new capacity)).
Proof. apply exec_wf, new_wf. Qed.

Lemma reachable_heap_property v capacity ops :
  heap_property v (exec v ops (new capacity)).
Proof. apply exec_heap_property; [apply new_wf | apply new_heap_property]. Qed.

(** X7.  After an accepted [add], [peek] shows the new element if the heap
    was empty, and otherwise the [better] of the new element and what
    [peek] showed before: the larger of the two in the max-heap, the
    smaller in the min-heap. *)
Theorem peek_after_add (v : variant) (capacity : nat) (ops : list op) (element : Z) :
  realSize (exec v ops (new capacity)) < capacity →
  (peek (add v element (exec v ops (new capacity))).1).1
  = if realSize (exec v ops (new capacity)) =? 0 then element
    else better v element (peek (exec v ops (new capacity))).1.
Proof.
  intros Hroom. apply add_peek_better.
  - apply reachable_wf.
  - apply reachable_heap_property.
  - by rewrite exec_heapSize.
Qed.

Lemma peek_after_add_witness :
  realSize (exec MaxHeap [Add 4; Add 6] (new 5)) < 5
  ∧ (peek (add MaxHeap 9 (exec MaxHeap [Add 4; Add 6] (new 5))).1).1
    = if realSize (exec MaxHeap [Add 4; Add 6] (new 5)) =? 0 then 9%Z
      else better MaxHeap 9 (peek (exec MaxHeap [Add 4; Add 6] (new 5))).1.
Proof.
  split; [vm_compute; lia|].
  apply (peek_after_add MaxHeap 5 [Add 4; Add 6] 9). vm_compute; lia.
Defined.

(** ** Emptying a heap *)

Lemma pops_realSize v n : ∀ s,
  realSize (exec v (replicate n Pop) s) = realSize s - n.
Proof.
  induction n as [|n IH]; intros s; [rewrite exec_nil; lia|].
  cbn [replicate]. rewrite exec_cons, IH, step_Pop. simpl.
  destruct (decide (1 ≤ realSize s)).
  - rewrite pop_nonempty by done. simpl. lia.
  - rewrite pop_empty_heap by lia. simpl. lia.
Qed.

(** ** Beyond the capacity *)

Lemma outputs_cons v o ops s :
  outputs v (o :: ops) s = (step v o s).2.2 :: outputs v ops (step v o s).1.
Proof. unfold outputs. by rewrite run_cons. Qed.

Lemma outputs_app v ops1 ops2 s :
  outputs v (ops1 ++ ops2) s = outputs v ops1 s ++ outputs v ops2 (exec v ops1 s).
Proof.
  revert s. induction ops1 as [|o ops1 IH]; intros s; [done|].
  by rewrite <- app_comm_cons, !outputs_cons, exec_cons, IH.
Qed.

Lemma adds_room_outputs v xs : ∀ s,
  realSize s + length xs ≤ heapSize s →
  outputs v (Add <$> xs) s = replicate (length xs) [].
Proof.
  induction xs as [|x xs IH]; intros s Hroom; [done|].
  simpl in Hroom. rewrite fmap_cons, outputs_cons, step_Add. simpl.
  rewrite add_room by lia. simpl. rewrite IH by (simpl; lia). done.
Qed.

Lemma adds_full v xs : ∀ s,
  heapSize s ≤ realSize s →
  exec v (Add <$> xs) s = s
  ∧ outputs v (Add <$> xs) s
    = replicate (length xs) ["Added too many Elements!"%string].
Proof.
  induction xs as [|x xs IH]; intros s Hfull; [done|].
  rewrite fmap_cons, exec_cons, outputs_cons, step_Add. simpl.
  rewrite add_full by done. simpl.
  destruct (IH s Hfull) as [-> ->]. done.
Qed.

(** X8.  Adding more elements than the capacity to a fresh heap keeps the
    first [capacity] of them and refuses each of the others with the line
    ["Added too many Elements!"]: nothing stored is overwritten or
    displaced by a refused element. *)
Theorem overflowing_adds (v : variant) (capacity : nat) (xs : list Z) :
  elements (exec v (Add <$> xs) (new capacity)) ≡ₚ take capacity xs
  ∧ size (exec v (Add <$> xs) (new capacity))
    = Z.of_nat (length xs `min` capacity)
  ∧ outputs v (Add <$> xs) (new capacity)
    = replicate (length xs `min` capacity) []
      ++ replicate (length xs - capacity) ["Added too many Elements!"%string].
Proof.
  rewrite <- (take_drop capacity xs) at 1 3 5.
  rewrite fmap_app, exec_app, outputs_app.
  destruct (adds_elements v (take capacity xs) (new capacity))
    as (Hp & Hn & _); [apply new_wf | rewrite length_take; simpl; lia |].
  rewrite adds_room_outputs by (rewrite length_take; simpl; lia).
  simpl in Hn. rewrite length_take in Hn.
  change (elements (new capacity)) with (@nil Z) in Hp. rewrite app_nil_r in Hp.
  destruct (decide (length xs ≤ capacity)) as [Hle|Hgt].
  - rewrite drop_ge by lia. rewrite exec_nil. simpl.
    rewrite length_take. unfold size. rewrite Hn.
    replace (length xs - capacity) with 0 by lia.
    replace (capacity `min` length xs) with (length xs `min` capacity) by lia.
    rewrite !app_nil_r. done.
  - destruct (adds_full v (drop capacity xs)
                (exec v (Add <$> take capacity xs) (new capacity)))
      as [He Ho].
    { rewrite exec_heapSize. simpl. lia. }
    rewrite He, Ho, length_take, length_drop.
    unfold size. rewrite Hn.
    replace (capacity `min` length xs) with (length xs `min` capacity) by lia.
    done.
Qed.

(** ** The slots a call leaves alone *)

Lemma bubble_up_frame v n : ∀ k hp,
  k ≤ n → n < length hp →
  ∀ i, i = 0 ∨ n < i → bubble_up v hp k !!! i = hp !!! i.
Proof.
  intros k. induction (lt_wf k) as [k _ IH]. intros hp Hk Hn i Hi.
  rewrite bubble_up_eq.
  destruct ((1 <? k) && beats v (hp !!! k) (hp !!! (k / 2))) eqn:E; [|done].
  apply andb_prop in E as [E _]. apply Nat.ltb_lt in E.
  rewrite IH by (rewrite ?swap_length; lia).
  rewrite swap_lookup by lia. repeat case_decide; (done || lia).
Qed.

Lemma bubble_down_frame v n : ∀ fuel k hp,
  1 ≤ k → n < length hp →
  ∀ i, i = 0 ∨ n < i → bubble_down fuel v n hp k !!! i = hp !!! i.
Proof.
  induction fuel as [|fuel IH]; intros k hp Hk Hn i Hi; [done|].
  rewrite bubble_down_S.
  destruct (k <=? n / 2) eqn:E; [apply Nat.leb_le in E | done].
  destruct (n <? k * 2 + 1) eqn:E1;
    [apply Nat.ltb_lt in E1 | apply Nat.ltb_ge in E1].
  all: repeat case_match; try done.
  all: rewrite IH by (rewrite ?swap_length; lia).
  all: rewrite swap_lookup by lia; repeat case_decide; (done || lia).
Qed.

Lemma add_frame v element s :
  wf s → ∀ i, i = 0 ∨ realSize s + 1 < i →
  heap (add v element s).1 !!! i = heap s !!! i.
Proof.
  intros [Hl Hn] i Hi. destruct (decide (realSize s < heapSize s)).
  - rewrite add_room by done. simpl.
    rewrite (bubble_up_frame v (realSize s + 1)) by (rewrite ?length_insert; lia).
    apply list_lookup_total_insert_ne. lia.
  - rewrite add_full by lia. done.
Qed.

Lemma pop_frame v s :
  wf s → ∀ i, i = 0 ∨ realSize s ≤ i →
  heap (pop v s).1.2 !!! i = heap s !!! i.
Proof.
  intros [Hl Hn] i Hi. destruct (decide (1 ≤ realSize s)).
  - rewrite pop_nonempty by done. simpl.
    rewrite (bubble_down_frame v (realSize s - 1)) by (rewrite ?length_insert; lia).
    destruct (decide (i = 1)) as [->|].
    + rewrite list_lookup_total_insert_eq by lia. f_equal. lia.
    + apply list_lookup_total_insert_ne. lia.
  - rewrite pop_empty_heap by lia. done.
Qed.

(** X9.  [add] writes only within the slots [1 .. realSize + 1] and [pop]
    only within [1 .. realSize - 1]: slot 0 and the slots above are left
    as they were.  In particular [pop] does not clear the slot it vacates,
    which keeps the element that was moved to the root. *)
Theorem untouched_slots (v : variant) (element : Z) (s : state) :
  wf s →
  (∀ i, i = 0 ∨ realSize s + 1 < i →
        heap (add v element s).1 !!! i = heap s !!! i)
  ∧ (∀ i, i = 0 ∨ realSize s ≤ i →
          heap (pop v s).1.2 !!! i = heap s !!! i).
Proof.
  intros Hwf. split; [by apply add_frame | by apply pop_frame].
Qed.

Lemma untouched_slots_witness :
  wf (exec MaxHeap [Add 2; Add 7; Add 5] (new 4))
  ∧ heap (add MaxHeap 9 (exec MaxHeap [Add 2; Add 7; Add 5] (new 4))).1 !!! 0
    = heap (exec MaxHeap [Add 2; Add 7; Add 5] (new 4)) !!! 0
  ∧ heap (pop MaxHeap (exec MaxHeap [Add 2; Add 7; Add 5] (new 4))).1.2 !!! 3
    = heap (exec MaxHeap [Add 2; Add 7; Add 5] (new 4)) !!! 3.
Proof.
  assert (Hwf : wf (exec MaxHeap [Add 2; Add 7; Add 5] (new 4))).
  { split; vm_compute; lia. }
  destruct (untouched_slots MaxHeap 9 _ Hwf) as [Hadd Hpop].
  split_and!; [exact Hwf | apply Hadd; left; reflexivity |].
  apply Hpop. right. vm_compute. lia.
Defined.

Lemma step_slot_zero v o s : wf s → heap (step v o s).1 !!! 0 = heap s !!! 0.
Proof.
  intros Hwf. destruct o; try done.
  - rewrite step_Add. simpl. apply add_frame; auto.
  - rewrite step_Pop. simpl. apply pop_frame; auto.
  - by rewrite step_Peek.
Qed.

(** X10.  The dummy value the constructor puts at index 0 is never
    overwritten: whatever is called, slot 0 holds 0. *)
Theorem dummy_slot_kept (v : variant) (capacity : nat) (ops : list op) :
  heap (exec v ops (new capacity)) !!! 0 = 0%Z.
Proof.
  assert (∀ s, wf s → heap (exec v ops s) !!! 0 = heap s !!! 0) as H.
  { induction ops as [|o ops IH]; intros s Hwf; [done|].
    rewrite exec_cons, IH by (by apply step_wf). by apply step_slot_zero. }
  rewrite H by apply new_wf. simpl.
  rewrite list_lookup_total_insert_eq; [done|].
  rewrite length_replicate. lia.
Qed.

(** ** Calls in combination *)

(** X11.  On a full heap of capacity at least 1, an [add] is refused, and
    after one [pop] the same [add] is accepted: [size] is back at the
    capacity and the heap stores what it stored before, with the element
    [peek] showed replaced by the new one. *)
Theorem refused_add_retry (v : variant) (element : Z) (s : state) :
  wf s → realSize s = heapSize s → 1 ≤ heapSize s →
  outputs v [Add element; Pop; Add element] s
  = [["Added too many Elements!"%string]; []; []]
  ∧ returns v [Add element; Pop; Add element] s
    = [VVoid; VInt (peek s).1; VVoid]
  ∧ size (exec v [Add element; Pop; Add element] s) = size s
  ∧ element :: elements s
    ≡ₚ (peek s).1 :: elements (exec v [Add element; Pop; Add element] s).
Proof.
  intros Hwf Hfull Hcap. pose proof Hwf as [Hl Hn].
  rewrite !outputs_cons, !returns_cons, !exec_cons, exec_nil.
  rewrite !step_Add, step_Pop. cbn [fst snd].
  rewrite (add_full v element s) by lia. cbn [fst snd].
  pose proof (pop_wf v s Hwf) as Hwf1.
  pose proof (pop_elements v s Hwf ltac:(lia)) as Hel.
  assert (Hroom : realSize (pop v s).1.2 < heapSize (pop v s).1.2).
  { rewrite pop_nonempty by lia. simpl. lia. }
  pose proof (add_elements v element _ Hwf1 Hroom) as Hel'.
  assert (Hpk : (pop v s).1.1 = (peek s).1).
  { by rewrite pop_nonempty, peek_nonempty by lia. }
  split_and!.
  - rewrite (add_room v element (pop v s).1.2) by done.
    by rewrite (pop_nonempty v s) by lia.
  - by rewrite Hpk.
  - unfold size. rewrite (add_room v element (pop v s).1.2) by done. simpl.
    rewrite (pop_nonempty v s) by lia. simpl. lia.
  - rewrite Hel', Hel, Hpk. apply Permutation_swap.
Qed.

Lemma refused_add_retry_witness :
  wf (exec MinHeap [Add 6; Add 2] (new 2))
  ∧ realSize (exec MinHeap [Add 6; Add 2] (new 2))
    = heapSize (exec MinHeap [Add 6; Add 2] (new 2))
  ∧ 1 ≤ heapSize (exec MinHeap [Add 6; Add 2] (new 2))
  ∧ outputs MinHeap [Add 4; Pop; Add 4] (exec MinHeap [Add 6; Add 2] (new 2))
    = [["Added too many Elements!"%string]; []; []]
  ∧ 4%Z :: elements (exec MinHeap [Add 6; Add 2] (new 2))
    ≡ₚ (peek (exec MinHeap [Add 6; Add 2] (new 2))).1
       :: elements (exec MinHeap [Add 4; Pop; Add 4]
                      (exec MinHeap [Add 6; Add 2] (new 2))).
Proof.
  assert (Hwf : wf (exec MinHeap [Add 6; Add 2] (new 2))).
  { split; vm_compute; lia. }
  assert (Hfull : realSize (exec MinHeap [Add 6; Add 2] (new 2))
                  = heapSize (exec MinHeap [Add 6; Add 2] (new 2))).
  { reflexivity. }
  assert (Hcap : 1 ≤ heapSize (exec MinHeap [Add 6; Add 2] (new 2))).
  { vm_compute; lia. }
  destruct (refused_add_retry MinHeap 4 _ Hwf Hfull Hcap) as (H1 & _ & _ & H2).
  split_and!; [exact Hwf | exact Hfull | exact Hcap | exact H1 | exact H2].
Defined.

(** X12.  An accepted [add] followed by [pop] returns the new element if
    the heap was empty and otherwise the [better] of the new element and
    what [peek] showed; [size] is as before, and the heap stores what it
    stored before with the new element in place of the returned one. *)
Theorem add_then_pop (v : variant) (capacity : nat) (ops : list op) (element : Z) :
  realSize (exec v ops (new capacity)) < capacity →
  returns v [Add element; Pop] (exec v ops (new capacity))
  = [VVoid;
     VInt (if realSize (exec v ops (new capacity)) =? 0 then element
           else better v element (peek (exec v ops (new capacity))).1)]
  ∧ size (exec v [Add element; Pop] (exec v ops (new capacity)))
    = size (exec v ops (new capacity))
  ∧ element :: elements (exec v ops (new capacity))
    ≡ₚ (if realSize (exec v ops (new capacity)) =? 0 then element
        else better v element (peek (exec v ops (new capacity))).1)
       :: elements (exec v [Add element; Pop] (exec v ops (new capacity))).
Proof.
  intros Hroom. set (s := exec v ops (new capacity)) in *.
  assert (Hwf : wf s) by apply reachable_wf.
  assert (Hh : heap_property v s) by apply reachable_heap_property.
  assert (Hcap : heapSize s = capacity) by apply exec_heapSize.
  pose proof (add_wf v element s Hwf) as Hwf1.
  assert (Hn1 : realSize (add v element s).1 = realSize s + 1).
  { rewrite add_room by lia. done. }
  pose proof (add_peek_better v element s Hwf Hh ltac:(lia)) as Hpk.
  rewrite peek_nonempty in Hpk by lia. simpl in Hpk.
  rewrite !returns_cons, !exec_cons, !exec_nil, step_Add, step_Pop.
  cbn [fst snd].
  assert (Hr : (pop v (add v element s).1).1.1 = heap (add v element s).1 !!! 1).
  { rewrite pop_nonempty by lia. done. }
  split_and!.
  - by rewrite Hr, Hpk.
  - unfold size. rewrite pop_nonempty by lia. simpl. lia.
  - rewrite <- Hpk, <- Hr.
    rewrite <- (add_elements v element s) by (done || lia).
    apply pop_elements; [done | lia].
Qed.

Lemma add_then_pop_witness :
  realSize (exec MaxHeap [Add 4; Add 6] (new 5)) < 5
  ∧ returns MaxHeap [Add 5; Pop] (exec MaxHeap [Add 4; Add 6] (new 5))
    = [VVoid;
       VInt (if realSize (exec MaxHeap [Add 4; Add 6] (new 5)) =? 0 then 5%Z
             else better MaxHeap 5 (peek (exec MaxHeap [Add 4; Add 6] (new 5))).1)]
  ∧ size (exec MaxHeap [Add 5; Pop] (exec MaxHeap [Add 4; Add 6] (new 5)))
    = size (exec MaxHeap [Add 4; Add 6] (new 5)).
Proof.
  assert (Hroom : realSize (exec MaxHeap [Add 4; Add 6] (new 5)) < 5).
  { vm_compute; lia. }
  destruct (add_then_pop MaxHeap 5 [Add 4; Add 6] 5 Hroom) as (H1 & H2 & _).
  split_and!; [exact Hroom | exact H1 | exact H2].
Defined.

(** ** The two classes are mirror images *)

Section Image.
Context (f : Z → Z) (v1 v2 : variant).
Hypothesis beats_image : ∀ a b, beats v2 (f a) (f b) = beats v1 a b.
Hypothesis loses_image : ∀ a b, loses v2 (f a) (f b) = loses v1 a b.

Lemma swap_image n hp1 hp2 i j :
  image_slots f n hp1 hp2 → 1 ≤ i ≤ n → 1 ≤ j ≤ n →
  n < length hp1 → n < length hp2 →
  image_slots f n (swap hp1 i j) (swap hp2 i j).
Proof.
  intros Him Hi Hj H1 H2 k Hk. rewrite !swap_lookup by lia.
  repeat case_decide; apply Him; lia.
Qed.

Lemma bubble_up_image n : ∀ k hp1 hp2,
  image_slots f n hp1 hp2 → 1 ≤ k ≤ n → n < length hp1 → n < length hp2 →
  image_slots f n (bubble_up v1 hp1 k) (bubble_up v2 hp2 k).
Proof.
  intros k. induction (lt_wf k) as [k _ IH]. intros hp1 hp2 Him Hk H1 H2.
  rewrite (bubble_up_eq v1 hp1), (bubble_up_eq v2 hp2).
  destruct (1 <? k) eqn:E; cbn [andb]; [|done].
  apply Nat.ltb_lt in E.
  rewrite (Him k), (Him (k / 2)), beats_image by lia.
  destruct (beats v1 (hp1 !!! k) (hp1 !!! (k / 2))); [|done].
  apply IH; rewrite ?swap_length; try lia.
  apply swap_image; (done || lia).
Qed.

Lemma bubble_down_image n : ∀ fuel k hp1 hp2,
  image_slots f n hp1 hp2 → 1 ≤ k → n < length hp1 → n < length hp2 →
  image_slots f n (bubble_down fuel v1 n hp1 k) (bubble_down fuel v2 n hp2 k).
Proof.
  induction fuel as [|fuel IH]; intros k hp1 hp2 Him Hk H1 H2; [done|].
  rewrite !bubble_down_S.
  destruct (k <=? n / 2) eqn:E; [apply Nat.leb_le in E | done].
  rewrite (Him k), (Him (k * 2)), loses_image by lia.
  destruct (n <? k * 2 + 1) eqn:E1;
    [apply Nat.ltb_lt in E1 | apply Nat.ltb_ge in E1].
  - destruct (loses v1 (hp1 !!! k) (hp1 !!! (k * 2))); [|done].
    apply IH; rewrite ?swap_length; try lia.
    apply swap_image; (done || lia).
  - rewrite (Him (k * 2 + 1)), loses_image, beats_image by lia.
    destruct (loses v1 (hp1 !!! k) (hp1 !!! (k * 2))
              || loses v1 (hp1 !!! k) (hp1 !!! (k * 2 + 1))); [|done].
    destruct (beats v1 (hp1 !!! (k * 2)) (hp1 !!! (k * 2 + 1))).
    all: apply IH; rewrite ?swap_length; try lia.
    all: apply swap_image; (done || lia).
Qed.
End Image.

Local Ltac compare_both :=
  rewrite ?Z.gtb_ltb;
  repeat match goal with
         | |- context [(?x <? ?y)%Z] => destruct (Z.ltb_spec x y)
         end;
  (done || lia).

Lemma beats_mirror v a b : beats (opposite v) (mirror a) (mirror b) = beats v a b.
Proof. destruct v; unfold mirror, Z.lnot; simpl; compare_both. Qed.

Lemma loses_mirror v a b : loses (opposite v) (mirror a) (mirror b) = loses v a b.
Proof. destruct v; unfold mirror, Z.lnot; simpl; compare_both. Qed.

Lemma pop_empty_mirror v : pop_empty (opposite v) = mirror (pop_empty v).
Proof. by destruct v. Qed.

Lemma step_mirrored v o s1 s2 :
  wf s1 → wf s2 → mirrored s1 s2 →
  mirrored (step v o s1).1 (step (opposite v) (mirror_op o) s2).1.
Proof.
  intros [Hl1 Hn1] [Hl2 Hn2] (Hc & Hn & Him). destruct o.
  - cbn [mirror_op]. rewrite !step_Add. cbn [fst].
    destruct (decide (realSize s1 < heapSize s1)).
    + rewrite (add_room _ _ s1), (add_room _ _ s2) by lia.
      split_and!; simpl; [done | lia |]. rewrite <- Hn.
      apply (bubble_up_image mirror v (opposite v) (beats_mirror v));
        rewrite ?length_insert; try lia.
      intros i Hi. rewrite !list_lookup_total_insert by lia.
      repeat case_decide; try lia; try done.
      apply Him. lia.
    + rewrite (add_full _ _ s1), (add_full _ _ s2) by lia. done.
  - cbn [mirror_op]. rewrite !step_Pop. cbn [fst snd].
    destruct (decide (1 ≤ realSize s1)).
    + rewrite (pop_nonempty _ s1), (pop_nonempty _ s2) by lia.
      split_and!; simpl; [done | lia |]. rewrite <- Hn.
      apply (bubble_down_image mirror v (opposite v)
               (beats_mirror v) (loses_mirror v));
        rewrite ?length_insert; try lia.
      intros i Hi. rewrite !list_lookup_total_insert by lia.
      repeat case_decide; try lia; try done; apply Him; lia.
    + rewrite (pop_empty_heap _ s1), (pop_empty_heap _ s2) by lia. done.
  - cbn [mirror_op]. by rewrite !step_Peek.
  - done.
  - done.
Qed.

Lemma exec_mirrored v ops : ∀ s1 s2,
  wf s1 → wf s2 → mirrored s1 s2 →
  mirrored (exec v ops s1) (exec (opposite v) (mirror_op <$> ops) s2).
Proof.
  induction ops as [|o ops IH]; intros s1 s2 Hwf1 Hwf2 Hm; [done|].
  rewrite fmap_cons, !exec_cons.
  apply IH; [by apply step_wf | by apply step_wf | by apply step_mirrored].
Qed.

Lemma mirrored_elements s1 s2 :
  wf s1 → wf s2 → mirrored s1 s2 → elements s2 = mirror <$> elements s1.
Proof.
  intros [Hl1 Hn1] [Hl2 Hn2] (Hc & Hn & Him). unfold elements. rewrite <- Hn.
  apply (list_eq_same_length _ _ (realSize s1));
    [rewrite ?length_fmap, length_take, length_drop; lia .. |].
  intros i x y Hi Hx Hy.
  rewrite list_lookup_fmap in Hy.
  rewrite lookup_take_lt, lookup_drop in Hx, Hy by lia.
  apply list_lookup_total_correct in Hx.
  destruct (heap s1 !! (1 + i)) as [z|] eqn:Hz; simplify_eq/=.
  apply list_lookup_total_correct in Hz. subst.
  apply Him. lia.
Qed.

(** X13.  The min-heap is the max-heap seen through the order-reversing
    map [x ↦ ~x] of [int], and conversely: running one class on a sequence
    of calls and the other on the same calls with every added element
    mirrored gives the same [size], the mirrored stored sequence, and
    [pop] results that mirror each other, also on the empty heap, where
    the two sentinels [INT_MIN] and [INT_MAX] mirror each other.  ([peek]
    does not follow on the empty heap: both classes return [INT_MAX].) *)
Theorem classes_mirror (v : variant) (capacity : nat) (ops : list op) :
  size (exec (opposite v) (mirror_op <$> ops) (new capacity))
  = size (exec v ops (new capacity))
  ∧ elements (exec (opposite v) (mirror_op <$> ops) (new capacity))
    = mirror <$> elements (exec v ops (new capacity))
  ∧ (pop (opposite v) (exec (opposite v) (mirror_op <$> ops) (new capacity))).1.1
    = mirror (pop v (exec v ops (new capacity))).1.1
  ∧ (peek (exec (opposite v) (mirror_op <$> ops) (new capacity))).1
    = if realSize (exec v ops (new capacity)) =? 0 then INT_MAX
      else mirror (peek (exec v ops (new capacity))).1.
Proof.
  assert (Hm : mirrored (exec v ops (new capacity))
                 (exec (opposite v) (mirror_op <$> ops) (new capacity))).
  { apply exec_mirrored; [apply new_wf | apply new_wf |].
    split_and!; [done | done |]. intros i Hi. simpl in Hi. lia. }
  pose proof (reachable_wf v capacity ops) as Hwf1.
  pose proof (reachable_wf (opposite v) capacity (mirror_op <$> ops)) as Hwf2.
  pose proof Hm as (Hc & Hn & Him).
  split_and!.
  - unfold size. by rewrite Hn.
  - by apply mirrored_elements.
  - destruct (decide (1 ≤ realSize (exec v ops (new capacity)))).
    + rewrite !pop_nonempty by lia. simpl. apply Him. lia.
    + rewrite !pop_empty_heap by lia. apply pop_empty_mirror.
  - destruct (realSize (exec v ops (new capacity)) =? 0) eqn:E.
    + apply Nat.eqb_eq in E. unfold peek. by rewrite <- Hn, E.
    + apply Nat.eqb_neq in E. rewrite !peek_nonempty by lia. simpl.
      apply Him. lia.
Qed.

(** ** The text of [toString] determines what is stored *)

Lemma plain_app a b : plain (a +:+ b) = plain a && plain b.
Proof.
  induction a as [|c a IH]; [done|].
  change (plain (String c (a +:+ b)) = plain (String c a) && plain b).
  cbn [plain]. rewrite IH. by rewrite !andb_assoc.
Qed.

Lemma pretty_N_char_plain x : plain (String (pretty_N_char x) "") = true.
Proof. unfold pretty_N_char. by repeat case_match. Qed.

Lemma pretty_N_go_plain x : ∀ acc,
  plain acc = true → plain (pretty_N_go x acc) = true.
Proof.
  induction (N.lt_wf_0 x) as [x _ IH]; intros acc Hacc.
  destruct (decide (x = 0)%N) as [->|Hx]; [by rewrite pretty_N_go_0|].
  rewrite pretty_N_go_step by lia. apply IH.
  - apply N.div_lt; lia.
  - pose proof (pretty_N_char_plain (x `mod` 10)%N) as Hc.
    cbn [plain] in *. rewrite andb_true_r in Hc. by rewrite Hc, Hacc.
Qed.

Lemma pretty_N_plain (x : N) : plain (pretty x) = true.
Proof.
  unfold pretty, pretty_N. case_decide; [done|]. by apply pretty_N_go_plain.
Qed.

Lemma pretty_Z_plain (z : Z) : plain (pretty z) = true.
Proof.
  destruct z as [|p|p]; [done | apply pretty_N_plain |].
  change (plain ("-" +:+ pretty (N.pos p)) = true).
  rewrite plain_app, pretty_N_plain. done.
Qed.

(** A plain text followed by a separator can be read back in one way. *)
Lemma plain_split : ∀ x y c1 t1 c2 t2,
  plain x = true → plain y = true →
  plain (String c1 "") = false → plain (String c2 "") = false →
  x +:+ String c1 t1 = y +:+ String c2 t2 →
  x = y ∧ String c1 t1 = String c2 t2.
Proof.
  induction x as [|c x IH]; intros [|d y] c1 t1 c2 t2 Hx Hy H1 H2 Heq.
  - done.
  - change (String c1 t1 = String d (y +:+ String c2 t2)) in Heq.
    injection Heq as -> _. cbn [plain] in *.
    rewrite andb_true_r in H1. rewrite H1 in Hy. done.
  - change (String c (x +:+ String c1 t1) = String c2 t2) in Heq.
    injection Heq as -> _. cbn [plain] in *.
    rewrite andb_true_r in H2. rewrite H2 in Hx. done.
  - change (String c (x +:+ String c1 t1) = String d (y +:+ String c2 t2)) in Heq.
    injection Heq as -> Heq. cbn [plain] in Hx, Hy.
    apply andb_prop in Hx as [_ Hx]. apply andb_prop in Hy as [_ Hy].
    destruct (IH y c1 t1 c2 t2) as [-> ?]; done.
Qed.

Lemma concat_closed_cons x l :
  String.concat "," (x :: l) +:+ "]"
  = x +:+ match l with
          | [] => "]"
          | _ :: _ => String "," (String.concat "," l +:+ "]")
          end.
Proof.
  destruct l as [|y l]; [done|].
  cbn [String.concat]. by rewrite string_app_assoc.
Qed.

Lemma concat_closed_inj : ∀ l1 l2,
  Forall (λ x, plain x = true) l1 → Forall (λ x, plain x = true) l2 →
  l1 ≠ [] → l2 ≠ [] →
  String.concat "," l1 +:+ "]" = String.concat "," l2 +:+ "]" →
  l1 = l2.
Proof.
  induction l1 as [|x l1 IH]; intros [|y l2] Hp1 Hp2 Hn1 Hn2 Heq; try done.
  apply Forall_cons in Hp1 as [Hx Hp1]. apply Forall_cons in Hp2 as [Hy Hp2].
  rewrite !concat_closed_cons in Heq.
  destruct l1 as [|x1 l1], l2 as [|y1 l2].
  - apply plain_split in Heq as [-> _]; done.
  - apply plain_split in Heq as [_ Heq]; done.
  - apply plain_split in Heq as [_ Heq]; done.
  - apply plain_split in Heq as [-> Heq]; try done.
    injection Heq as Heq. f_equal. by apply IH.
Qed.

Lemma bracketed_inj xs ys :
  xs ≠ [] → ys ≠ [] → bracketed xs = bracketed ys → xs = ys.
Proof.
  intros Hx Hy Heq. unfold bracketed in Heq.
  change (String "[" (String.concat "," (pretty <$> xs) +:+ "]")
          = String "[" (String.concat "," (pretty <$> ys) +:+ "]")) in Heq.
  injection Heq as Heq.
  apply concat_closed_inj in Heq.
  - by apply (inj (fmap pretty)) in Heq.
  - apply Forall_fmap, Forall_forall. intros z _. apply pretty_Z_plain.
  - apply Forall_fmap, Forall_forall. intros z _. apply pretty_Z_plain.
  - by destruct xs.
  - by destruct ys.
Qed.

Lemma elements_length s : wf s → length (elements s) = realSize s.
Proof.
  intros [Hl Hn]. unfold elements. rewrite length_take, length_drop. lia.
Qed.

(** X14.  [toString] tells heaps with different contents apart: two heaps,
    of whatever capacity and history, that print the same text have the
    same [size] and store the same elements in the same slots. *)
Theorem toString_injective (s1 s2 : state) :
  wf s1 → wf s2 → toString s1 = toString s2 →
  size s1 = size s2 ∧ elements s1 = elements s2.
Proof.
  intros Hwf1 Hwf2 Heq.
  cut (elements s1 = elements s2).
  { intros He. split; [|done]. unfold size.
    by rewrite <- (elements_length s1), <- (elements_length s2), He. }
  pose proof (elements_length s1 Hwf1) as Hl1.
  pose proof (elements_length s2 Hwf2) as Hl2.
  destruct (decide (realSize s1 = 0)) as [E1|E1],
           (decide (realSize s2 = 0)) as [E2|E2].
  - rewrite E1 in Hl1. rewrite E2 in Hl2.
    apply nil_length_inv in Hl1, Hl2. congruence.
  - rewrite (toString_empty s1), (toString_nonempty s2) in Heq by done.
    discriminate.
  - rewrite (toString_nonempty s1), (toString_empty s2) in Heq by done.
    discriminate.
  - rewrite !toString_nonempty in Heq by done.
    apply bracketed_inj in Heq; [done | |].
    + intros He. rewrite He in Hl1. simpl in Hl1. lia.
    + intros He. rewrite He in Hl2. simpl in Hl2. lia.
Qed.

Lemma toString_injective_witness :
  wf (exec MaxHeap [Add 1; Add 2; Pop] (new 3))
  ∧ wf (exec MaxHeap [Add 1] (new 7))
  ∧ toString (exec MaxHeap [Add 1; Add 2; Pop] (new 3))
    = toString (exec MaxHeap [Add 1] (new 7))
  ∧ size (exec MaxHeap [Add 1; Add 2; Pop] (new 3))
    = size (exec MaxHeap [Add 1] (new 7))
  ∧ elements (exec MaxHeap [Add 1; Add 2; Pop] (new 3))
    = elements (exec MaxHeap [Add 1] (new 7)).
Proof.
  assert (Hwf1 : wf (exec MaxHeap [Add 1; Add 2; Pop] (new 3))).
  { split; vm_compute; lia. }
  assert (Hwf2 : wf (exec MaxHeap [Add 1] (new 7))).
  { split; vm_compute; lia. }
  assert (Heq : toString (exec MaxHeap [Add 1; Add 2; Pop] (new 3))
                = toString (exec MaxHeap [Add 1] (new 7))).
  { vm_compute. reflexivity. }
  destruct (toString_injective _ _ Hwf1 Hwf2 Heq) as [H1 H2].
  split_and!; [exact Hwf1 | exact Hwf2 | exact Heq | exact H1 | exact H2].
Defined.

(** ** Popping past the last element *)

Lemma pops_empty v k : ∀ s,
  realSize s = 0 →
  exec v (replicate k Pop) s = s
  ∧ returns v (replicate k Pop) s = replicate k (VInt (pop_empty v))
  ∧ outputs v (replicate k Pop) s
    = replicate k ["Don't have any element"%string].
Proof.
  induction k as [|k IH]; intros s Hs; [done|].
  cbn [replicate]. rewrite exec_cons, returns_cons, outputs_cons, step_Pop.
  rewrite pop_empty_heap by done. cbn [fst snd].
  destruct (IH s Hs) as (-> & -> & ->). done.
Qed.

Lemma pops_outputs v n : ∀ s,
  n ≤ realSize s → outputs v (replicate n Pop) s = replicate n [].
Proof.
  induction n as [|n IH]; intros s Hn; [done|].
  cbn [replicate]. rewrite outputs_cons, step_Pop.
  rewrite pop_nonempty by lia. cbn [fst snd]. rewrite IH; [done|]. simpl. lia.
Qed.

(** X15.  Calling [pop] more often than there are elements returns the
    stored elements in [order] and then, for each further call, the
    sentinel of the class ([INT_MIN] for the max-heap, [INT_MAX] for the
    min-heap) with the line ["Don't have any element"]; the heap stays
    empty and intact. *)
Theorem pops_past_empty (v : variant) (capacity : nat) (ops : list op) (k : nat) :
  ∃ ys,
    returns v (replicate (realSize (exec v ops (new capacity)) + k) Pop)
            (exec v ops (new capacity))
    = (VInt <$> ys) ++ replicate k (VInt (pop_empty v))
    ∧ StronglySorted (order v) ys
    ∧ ys ≡ₚ elements (exec v ops (new capacity))
    ∧ outputs v (replicate (realSize (exec v ops (new capacity)) + k) Pop)
              (exec v ops (new capacity))
      = replicate (realSize (exec v ops (new capacity))) []
        ++ replicate k ["Don't have any element"%string]
    ∧ size (exec v (replicate (realSize (exec v ops (new capacity)) + k) Pop)
                 (exec v ops (new capacity))) = 0%Z.
Proof.
  set (s := exec v ops (new capacity)).
  destruct (pops_sorted v (realSize s) s) as (ys & Hr & Hs & Hp);
    [apply reachable_wf | apply reachable_heap_property | done |].
  destruct (pops_empty v k (exec v (replicate (realSize s) Pop) s))
    as (He & Hr' & Ho').
  { rewrite pops_realSize. lia. }
  exists ys. rewrite replicate_add, returns_app, outputs_app, exec_app.
  rewrite Hr, Hr', Ho', He, pops_outputs by done.
  split_and!; try done.
  unfold size. rewrite pops_realSize. lia.
Qed.
